(** * go-jsonrpc2: identifiers, messages, server dispatch and client table

    A shallow embedding of the package [jsonrpc2] (files id.go, the message
    model, the server and client.go) together with the properties of its
    specification.  Go strings and byte slices are [string]s (sequences of
    8-bit [ascii]); [int64] values are [Z] with the wrap-around written out;
    a Go pointer that may be nil is an [option]. *)

From Stdlib Require Import ZArith Lia Bool List Ascii String.
From stdpp Require Import base option gmap sorting.
Import ListNotations.

Local Open Scope string_scope.
Local Open Scope Z_scope.

(** ** The 64-bit integer types *)

Definition minInt64 : Z := - 2 ^ 63.
Definition maxInt64 : Z := 2 ^ 63 - 1.
Definition maxUint64 : Z := 2 ^ 64 - 1.

Definition int64_range (i : Z) : Prop := minInt64 <= i <= maxInt64.

(** The conversions [uint64(x)] and [int64(x)]. *)
Definition wrap_uint64 (x : Z) : Z := x mod 2 ^ 64.
Definition wrap_int64 (x : Z) : Z := (x + 2 ^ 63) mod 2 ^ 64 - 2 ^ 63.

(** ** Bytes *)

Definition byte_val (c : ascii) : Z := Z.of_N (N_of_ascii c).
Definition byte_of (z : Z) : ascii := ascii_of_N (Z.to_N z).

Definition is_digit (c : ascii) : bool :=
  (byte_val "0" <=? byte_val c) && (byte_val c <=? byte_val "9").

(** [s[n:]] (empty when [n] exceeds the length). *)
Fixpoint drop_bytes (n : nat) (s : string) : string :=
  match n, s with
  | S k, String _ rest => drop_bytes k rest
  | _, _ => s
  end.

(** [lowerhex[n]] for a nibble [n]. *)
Definition lowerhex (n : Z) : ascii :=
  if n <? 10 then byte_of (byte_val "0" + n) else byte_of (byte_val "a" + (n - 10)).

Definition hex2 (b : Z) : string :=
  String (lowerhex (Z.shiftr b 4)) (String (lowerhex (Z.land b 15)) "").

Definition hex4 (r : Z) : string :=
  String (lowerhex (Z.land (Z.shiftr r 12) 15))
    (String (lowerhex (Z.land (Z.shiftr r 8) 15)) (hex2 (Z.land r 255))).

Definition hex8 (r : Z) : string :=
  hex4 (Z.land (Z.shiftr r 16) 65535) ++ hex4 (Z.land r 65535).

(** The ASCII double quote, backslash and control characters. *)
Definition dquote : ascii := byte_of 34.
Definition backslash : ascii := byte_of 92.
Definition ch_bel : ascii := byte_of 7.
Definition ch_bs : ascii := byte_of 8.
Definition ch_tab : ascii := byte_of 9.
Definition ch_lf : ascii := byte_of 10.
Definition ch_vt : ascii := byte_of 11.
Definition ch_ff : ascii := byte_of 12.
Definition ch_cr : ascii := byte_of 13.

(** ** Package unicode/utf8 (Go standard library) *)

Definition RuneError : Z := 65533.

Definition is_surrogate (r : Z) : bool := (55296 <=? r) && (r <=? 57343).

Definition ValidRune (r : Z) : bool :=
  (0 <=? r) && (r <=? 1114111) && negb (is_surrogate r).

(** [utf8.DecodeRuneInString]: the first rune of [s] and its width in
    bytes; an ill-formed or truncated sequence is [(RuneError, 1)]. *)
Definition DecodeRuneInString (s : string) : Z * nat :=
  match s with
  | EmptyString => (RuneError, 0%nat)
  | String c0 s1 =>
      let b0 := byte_val c0 in
      if b0 <? 128 then (b0, 1%nat)
      else if (b0 <? 194) || (244 <? b0) then (RuneError, 1%nat)
      else
        let lo := if b0 =? 224 then 160 else if b0 =? 240 then 144 else 128 in
        let hi := if b0 =? 237 then 159 else if b0 =? 244 then 143 else 191 in
        match s1 with
        | EmptyString => (RuneError, 1%nat)
        | String c1 s2 =>
            let b1 := byte_val c1 in
            if (b1 <? lo) || (hi <? b1) then (RuneError, 1%nat)
            else if b0 <? 224 then
              (Z.lor (Z.shiftl (Z.land b0 31) 6) (Z.land b1 63), 2%nat)
            else
              match s2 with
              | EmptyString => (RuneError, 1%nat)
              | String c2 s3 =>
                  let b2 := byte_val c2 in
                  if (b2 <? 128) || (191 <? b2) then (RuneError, 1%nat)
                  else if b0 <? 240 then
                    (Z.lor (Z.shiftl (Z.land b0 15) 12)
                       (Z.lor (Z.shiftl (Z.land b1 63) 6) (Z.land b2 63)), 3%nat)
                  else
                    match s3 with
                    | EmptyString => (RuneError, 1%nat)
                    | String c3 _ =>
                        let b3 := byte_val c3 in
                        if (b3 <? 128) || (191 <? b3) then (RuneError, 1%nat)
                        else
                          (Z.lor (Z.shiftl (Z.land b0 7) 18)
                             (Z.lor (Z.shiftl (Z.land b1 63) 12)
                                (Z.lor (Z.shiftl (Z.land b2 63) 6) (Z.land b3 63))),
                           4%nat)
                    end
              end
        end
  end.

(** [utf8.AppendRune]: the UTF-8 encoding of [r]; a surrogate or a value
    out of range is encoded as U+FFFD. *)
Definition EncodeRune (r : Z) : string :=
  let cont (x : Z) := byte_of (Z.lor 128 (Z.land x 63)) in
  let three (x : Z) :=
    String (byte_of (Z.lor 224 (Z.shiftr x 12)))
      (String (cont (Z.shiftr x 6)) (String (cont x) "")) in
  if (0 <=? r) && (r <? 128) then String (byte_of r) ""
  else if (0 <=? r) && (r <? 2048) then
    String (byte_of (Z.lor 192 (Z.shiftr r 6))) (String (cont r) "")
  else if negb (ValidRune r) then three RuneError
  else if r <? 65536 then three r
  else
    String (byte_of (Z.lor 240 (Z.shiftr r 18)))
      (String (cont (Z.shiftr r 12))
         (String (cont (Z.shiftr r 6)) (String (cont r) ""))).

(** ** Package strconv (Go standard library)

    Modelled from the library's documentation and source: base-10
    formatting and parsing of 64-bit integers. *)
Module strconv.

(** The decimal digits of [u], most significant first, in front of
    [acc]; twenty digits are enough for every uint64. *)
Fixpoint formatBits (fuel : nat) (u : Z) (acc : string) : string :=
  match fuel with
  | O => acc
  | S fuel' =>
      if u <? 10 then String (byte_of (byte_val "0" + u)) acc
      else formatBits fuel' (u / 10)
             (String (byte_of (byte_val "0" + u mod 10)) acc)
  end.

(** [FormatInt(i, 10)]: the magnitude is computed in uint64, as the
    library does ([u = uint64(i); if neg { u = -u }]). *)
Definition FormatInt (i : Z) : string :=
  let u := wrap_uint64 i in
  if i <? 0 then String "-" (formatBits 20 (wrap_uint64 (- u)) "")
  else formatBits 20 u "".

Inductive NumError := ErrSyntax | ErrRange.

(** The digit loop of [ParseUint(s, 10, 64)], with [n] the value read so
    far: a byte that is not a decimal digit is a syntax error, a value
    beyond uint64 a range error. *)
Fixpoint parseDigits (s : string) (n : Z) : Z + NumError :=
  match s with
  | EmptyString => inl n
  | String c rest =>
      if is_digit c then
        let d := byte_val c - byte_val "0" in
        if n >=? maxUint64 / 10 + 1 then inr ErrRange
        else
          let n10 := n * 10 in
          let n1 := wrap_uint64 (n10 + d) in
          if (n1 <? n10) || (n1 >? maxUint64) then inr ErrRange
          else parseDigits rest n1
      else inr ErrSyntax
  end.

Definition ParseUint (s : string) : Z + NumError :=
  match s with
  | EmptyString => inr ErrSyntax
  | _ => parseDigits s 0
  end.

(** [ParseInt(s, 10, 64)]: an optional sign, then [ParseUint]; the
    unsigned value must fit the signed range. *)
Definition ParseInt (s : string) : Z + NumError :=
  match s with
  | EmptyString => inr ErrSyntax
  | String c rest =>
      let neg := Ascii.eqb c "-" in
      let s' := if Ascii.eqb c "+" || neg then rest else s in
      match ParseUint s' with
      | inr ErrSyntax => inr ErrSyntax
      | inr ErrRange => inr ErrRange
      | inl un =>
          let cutoff := 2 ^ 63 in
          if negb neg && (un >=? cutoff) then inr ErrRange
          else if neg && (un >? cutoff) then inr ErrRange
          else inl (if neg then wrap_int64 (- wrap_int64 un) else wrap_int64 un)
      end
  end.



(** ** Package strconv: Quote *)
Section Quote.

(** [unicode_print r] stands for the library's tables of printable runes
    above U+00FF, which [IsPrint] consults; they are data of the Go
    distribution and are left open here. *)
Variable unicode_print : Z -> bool.

Definition IsPrint (r : Z) : bool :=
  if r <=? 255 then
    if (32 <=? r) && (r <=? 126) then true
    else if (161 <=? r) && (r <=? 255) then negb (r =? 173)
    else false
  else unicode_print r.

Definition appendEscapedRune (r : Z) : string :=
  if (r =? byte_val dquote) || (r =? byte_val backslash) then
    String backslash (String (byte_of r) "")
  else if IsPrint r then EncodeRune r
  else if r =? 7 then String backslash "a"
  else if r =? 8 then String backslash "b"
  else if r =? 12 then String backslash "f"
  else if r =? 10 then String backslash "n"
  else if r =? 13 then String backslash "r"
  else if r =? 9 then String backslash "t"
  else if r =? 11 then String backslash "v"
  else if (r <? 32) || (r =? 127) then String backslash (String "x" (hex2 (Z.land r 255)))
  else if negb (ValidRune r) then String backslash (String "u" (hex4 RuneError))
  else if r <? 65536 then String backslash (String "u" (hex4 r))
  else String backslash (String "U" (hex8 r)).

(** The loop of [quoteWith]: [skip] counts the bytes of the current rune
    still to be stepped over ([s = s[width:]]). *)
Fixpoint quoteLoop (skip : nat) (s : string) : string :=
  match s with
  | EmptyString => EmptyString
  | String c rest =>
      match skip with
      | S k => quoteLoop k rest
      | O =>
          let '(r, width) :=
            if byte_val c >=? 128 then DecodeRuneInString s else (byte_val c, 1%nat) in
          if (Nat.eqb width 1) && (r =? RuneError) then
            String backslash (String "x" (hex2 (byte_val c))) ++ quoteLoop 0 rest
          else appendEscapedRune r ++ quoteLoop (Nat.pred width) rest
      end
  end.

(** [strconv.Quote(s)]. *)
Definition Quote (s : string) : string :=
  String dquote (quoteLoop 0 s ++ String dquote "").

End Quote.

End strconv.

(** ** Package json (github.com/goccy/go-json)

    Modelled from the library's documentation: the encoding and decoding
    of the scalar values this package hands to it.  [Marshal] escapes
    HTML characters by default and copies bytes above 0x7F unchanged. *)
Module json.

(** The JSON text of one byte of a Go string. *)
Definition escapeByte (c : ascii) : string :=
  let b := byte_val c in
  if (b =? 34) || (b =? 92) then String backslash (String c "")
  else if b =? 10 then String backslash "n"
  else if b =? 13 then String backslash "r"
  else if b =? 9 then String backslash "t"
  else if (b <? 32) || (b =? 60) || (b =? 62) || (b =? 38) then
    String backslash (String "u" (String "0" (String "0" (hex2 b))))
  else String c "".

Fixpoint escapeString (s : string) : string :=
  match s with
  | EmptyString => EmptyString
  | String c rest => escapeByte c ++ escapeString rest
  end.

(** [json.Marshal] of a string (or of a non-nil [*string]). *)
Definition Marshal_string (s : string) : string :=
  String dquote (escapeString s ++ String dquote "").

(** [json.Marshal] of an int64 (or of a non-nil [*int64]). *)
Definition Marshal_int64 (i : Z) : string := strconv.FormatInt i.

Definition hexval (c : ascii) : option Z :=
  let b := byte_val c in
  if is_digit c then Some (b - 48)
  else if (97 <=? b) && (b <=? 102) then Some (b - 87)
  else if (65 <=? b) && (b <=? 70) then Some (b - 55)
  else None.

(** [getu4 s]: the code unit of a leading [\uXXXX] of [s], if any. *)
Definition getu4 (s : string) : option Z :=
  match s with
  | String b (String u (String h1 (String h2 (String h3 (String h4 _))))) =>
      if Ascii.eqb b backslash && Ascii.eqb u "u" then
        match hexval h1, hexval h2, hexval h3, hexval h4 with
        | Some a, Some b, Some c, Some d => Some (((a * 16 + b) * 16 + c) * 16 + d)
        | _, _, _, _ => None
        end
      else None
  | _ => None
  end.

(** [utf16.DecodeRune]. *)
Definition utf16_DecodeRune (r1 r2 : Z) : Z :=
  if (55296 <=? r1) && (r1 <? 56320) && (56320 <=? r2) && (r2 <? 57344)
  then Z.lor (Z.shiftl (r1 - 55296) 10) (r2 - 56320) + 65536
  else RuneError.

Definition prepend (x : string) (r : option (string * string)) : option (string * string) :=
  match r with
  | Some (d, rest) => Some (x ++ d, rest)
  | None => None
  end.

(** The body of a string literal after its opening quote: the decoded
    bytes and the input left after the closing quote.  [skip] counts the
    bytes of the current escape still to be stepped over. *)
Fixpoint unquoteLoop (skip : nat) (s : string) : option (string * string) :=
  match s with
  | EmptyString => None
  | String c rest =>
      match skip with
      | S k => unquoteLoop k rest
      | O =>
          if Ascii.eqb c dquote then Some (EmptyString, rest)
          else if Ascii.eqb c backslash then
            match rest with
            | EmptyString => None
            | String e _ =>
                let b := byte_val e in
                if (b =? 34) || (b =? 92) || (b =? 47) then
                  prepend (String e "") (unquoteLoop 1 rest)
                else if Ascii.eqb e "b" then prepend (String ch_bs "") (unquoteLoop 1 rest)
                else if Ascii.eqb e "f" then prepend (String ch_ff "") (unquoteLoop 1 rest)
                else if Ascii.eqb e "n" then prepend (String ch_lf "") (unquoteLoop 1 rest)
                else if Ascii.eqb e "r" then prepend (String ch_cr "") (unquoteLoop 1 rest)
                else if Ascii.eqb e "t" then prepend (String ch_tab "") (unquoteLoop 1 rest)
                else if Ascii.eqb e "u" then
                  match getu4 s with
                  | None => None
                  | Some rr =>
                      if is_surrogate rr then
                        let dec :=
                          match getu4 (drop_bytes 6 s) with
                          | Some rr1 => utf16_DecodeRune rr rr1
                          | None => RuneError
                          end in
                        if dec =? RuneError then
                          prepend (EncodeRune RuneError) (unquoteLoop 5 rest)
                        else prepend (EncodeRune dec) (unquoteLoop 11 rest)
                      else prepend (EncodeRune rr) (unquoteLoop 5 rest)
                  end
                else None
            end
          else if byte_val c <? 32 then None
          else prepend (String c "") (unquoteLoop 0 rest)
      end
  end.

Definition is_space (c : ascii) : bool :=
  let b := byte_val c in (b =? 32) || (b =? 9) || (b =? 10) || (b =? 13).

Fixpoint all_space (s : string) : bool :=
  match s with
  | EmptyString => true
  | String c rest => is_space c && all_space rest
  end.

Fixpoint trim_left (s : string) : string :=
  match s with
  | EmptyString => EmptyString
  | String c rest => if is_space c then trim_left rest else s
  end.

(** [json.Unmarshal(data, &p)] for [p] of type [*string]: [None] is an
    error, [Some None] leaves [p] nil (the JSON value [null]) and
    [Some (Some s)] stores the decoded string. *)
Definition Unmarshal_string (data : string) : option (option string) :=
  match trim_left data with
  | String c rest =>
      if Ascii.eqb c dquote then
        match unquoteLoop 0 rest with
        | Some (d, tail) => if all_space tail then Some (Some d) else None
        | None => None
        end
      else
        match rest with
        | String u (String l1 (String l2 tail)) =>
            if Ascii.eqb c "n" && Ascii.eqb u "u" && Ascii.eqb l1 "l" && Ascii.eqb l2 "l"
               && all_space tail
            then Some None else None
        | _ => None
        end
  | EmptyString => None
  end.

End json.

(** ** Package errors (Go standard library)

    An error value is one of this package's typed errors (the payload
    type [E], instantiated below), an error made by [errors.New], or an
    error made by [fmt.Errorf]: its format, the errors it wraps with [%w]
    and its other operands. *)
Section GoErrors.

Variable E : Type.

#[warnings="-register-all"]
Inductive go_error : Type :=
| TypedError (e : E)
| errors_New (text : string)
| fmt_Errorf (format : string) (wrapped : list go_error) (operands : list string).

(** [errors.As(err, &target)] for a target of the typed error: the first
    typed error in the chain, depth first. *)
Fixpoint errors_As (err : go_error) : option E :=
  match err with
  | TypedError e => Some e
  | errors_New _ => None
  | fmt_Errorf _ ws _ =>
      (fix first (l : list go_error) : option E :=
         match l with
         | [] => None
         | w :: l' => match errors_As w with Some e => Some e | None => first l' end
         end) ws
  end.

(** [errors.Is(err, target)]: [target] is [err] or occurs in its chain. *)
Inductive errors_Is (target : go_error) : go_error -> Prop :=
| Is_here : errors_Is target target
| Is_wrapped format ws ops w :
    In w ws -> errors_Is target w -> errors_Is target (fmt_Errorf format ws ops).

End GoErrors.

Arguments TypedError {E} e.
Arguments errors_New {E} text.
Arguments fmt_Errorf {E} format wrapped operands.
Arguments errors_As {E} err.
Arguments errors_Is {E} target _.

(** ** The message model *)

(** A value of the interface type [any]: nil, or a value that this
    package only ever passes to the encoder, represented by its JSON
    text. *)
Inductive any := nil_any | any_value (json_text : string).

Definition ErrorCode := Z.

(** [type Error struct]. *)
Record Error := {
  Code : ErrorCode;
  Message : string;
  Data : any
}.

Definition error := go_error Error.

Definition ParseErrorCode : ErrorCode := -32700.
Definition InvalidRequestCode : ErrorCode := -32600.
Definition MethodNotFoundCode : ErrorCode := -32601.
Definition InvalidParamsCode : ErrorCode := -32602.
Definition InternalErrorCode : ErrorCode := -32603.

Definition ErrParseError := {| Code := ParseErrorCode; Message := "Parse error"; Data := nil_any |}.
Definition ErrInvalidRequest := {| Code := InvalidRequestCode; Message := "Invalid Request"; Data := nil_any |}.
Definition ErrMethodNotFound := {| Code := MethodNotFoundCode; Message := "Method not found"; Data := nil_any |}.
Definition ErrInvalidParams := {| Code := InvalidParamsCode; Message := "Invalid params"; Data := nil_any |}.
Definition ErrInternalError := {| Code := InternalErrorCode; Message := "Internal error"; Data := nil_any |}.

(** [fmt.Sprintf(prefix + " (%d)", code)]. *)
Definition Sprintf_code (prefix : string) (code : Z) : string :=
  prefix ++ " (" ++ strconv.FormatInt code ++ ")".

(** [func (e ErrorCode) String() string]. *)
Definition ErrorCode_String (e : ErrorCode) : string :=
  if e =? ParseErrorCode then Sprintf_code "Parse error" ParseErrorCode
  else if e =? InvalidRequestCode then Sprintf_code "Invalid Request" InvalidRequestCode
  else if e =? MethodNotFoundCode then Sprintf_code "Method not found" MethodNotFoundCode
  else if e =? InvalidParamsCode then Sprintf_code "Invalid params" InvalidParamsCode
  else if e =? InternalErrorCode then Sprintf_code "Internal error" InternalErrorCode
  else if (-32000 <=? e) && (e <=? -32099) then Sprintf_code "Server error" e
  else Sprintf_code "Error" e.

Definition Version := string.
Definition VersionValue : Version := "2.0".

(** ** Identifiers (id.go) *)

Definition ErrInvalidID : error := errors_New "Invalid ID".
Definition ErrInvalidIDType : error :=
  fmt_Errorf "%w: %w"
    [ErrInvalidID; errors_New "ID have to be either integer, string, or null"] [].

Module ID.

(** [type ID struct { i64 *int64; str *string }]. *)
Record t := { i64 : option Z; str : option string }.

Definition Int64ID (i : Z) : t := {| i64 := Some i; str := None |}.
Definition StringID (s : string) : t := {| i64 := None; str := Some s |}.
Definition NullID : t := {| i64 := None; str := None |}.

(** [Raw]: the int64, the string, or nil. *)
Inductive raw := raw_int (i : Z) | raw_string (s : string) | raw_nil.

Definition Raw (id : t) : raw :=
  match i64 id, str id with
  | Some i, _ => raw_int i
  | None, Some s => raw_string s
  | None, None => raw_nil
  end.

(** [MarshalJSON]; its error result is always nil. *)
Definition MarshalJSON (id : t) : string :=
  match i64 id, str id with
  | Some i, _ => json.Marshal_int64 i
  | None, Some s => json.Marshal_string s
  | None, None => "null"
  end.

(** [UnmarshalJSON]: the identifier after the call and the error
    returned. *)
Definition UnmarshalJSON (data : string) : t * option error :=
  if String.eqb data "null" || (String.length data =? 0)%nat then (NullID, None)
  else
    let first := match data with String c _ => c | EmptyString => "000"%char end in
    let invalid :=
      (NullID, Some (fmt_Errorf "%w but got %q" [ErrInvalidIDType] [data])) in
    let as_string :=
      if Ascii.eqb first dquote then
        match json.Unmarshal_string data with
        | Some p => ({| i64 := None; str := p |}, None)
        | None => invalid
        end
      else invalid in
    if Ascii.eqb first "-" || is_digit first then
      match strconv.ParseInt data with
      | inl i => (Int64ID i, None)
      | inr _ => as_string
      end
    else as_string.

(** [String]: the display form. *)
Definition String (unicode_print : Z -> bool) (id : t) : string :=
  match i64 id, str id with
  | Some i, _ => strconv.FormatInt i
  | None, Some s => strconv.Quote unicode_print s
  | None, None => "null"
  end.

End ID.

(** [type Request[T any] struct]; the identifier is absent for a
    notification. *)
Record Request (T : Type) := {
  req_Jsonrpc : Version;
  Method : string;
  Params : T;
  req_ID : option ID.t
}.
Arguments req_Jsonrpc {T} _.
Arguments Method {T} _.
Arguments Params {T} _.
Arguments req_ID {T} _.

(** [json.RawMessage]: a raw JSON fragment. *)
Definition RawMessage := string.
Definition RawRequest := Request RawMessage.

Definition NewRequest {T} (id : option ID.t) (method : string) (params : T) : Request T :=
  {| req_Jsonrpc := VersionValue; Method := method; Params := params; req_ID := id |}.

(** [type Response[T any] struct]. *)
Record Response (T : Type) := {
  resp_Jsonrpc : Version;
  Result : T;
  resp_Error : option Error;
  resp_ID : option ID.t
}.
Arguments resp_Jsonrpc {T} _.
Arguments Result {T} _.
Arguments resp_Error {T} _.
Arguments resp_ID {T} _.

Definition NewErrorResponse (id : option ID.t) (err : Error) : Response any :=
  {| resp_Jsonrpc := VersionValue; Result := nil_any; resp_Error := Some err; resp_ID := id |}.

(** The JSON text of a request written by the client, whose [Params]
    field holds a non-nil pointer to a value of type [any]: the fields in
    declaration order, [id] omitted when nil. *)
Definition json_key (k : string) : string := json.Marshal_string k ++ ":".

Definition Marshal_any (v : any) : string :=
  match v with
  | nil_any => "null"
  | any_value text => text
  end.

Definition Marshal_Request (r : Request any) : string :=
  "{" ++ json_key "jsonrpc" ++ json.Marshal_string (req_Jsonrpc r)
  ++ "," ++ json_key "method" ++ json.Marshal_string (Method r)
  ++ "," ++ json_key "params" ++ Marshal_any (Params r)
  ++ match req_ID r with
     | Some id => "," ++ json_key "id" ++ ID.MarshalJSON id
     | None => ""
     end
  ++ "}".

(** ** The batch wrapper [messageList[T]] *)
Module messageList.
Section WithT.

Variable T : Type.
(** [json.Marshal] and [json.Unmarshal] of one message. *)
Variable Marshal_T : T -> string.
Variable Unmarshal_T : string -> option T.

(** [Messages] is a slice; the nil slice, which the encoder writes as
    [null], is not told apart from the empty one. *)
Record t := { IsBatch : bool; Messages : list T }.

Fixpoint join_comma (l : list string) : string :=
  match l with
  | [] => ""
  | [x] => x
  | x :: l' => x ++ "," ++ join_comma l'
  end.

(** [json.Marshal] of a slice of messages. *)
Definition Marshal_slice (l : list T) : string :=
  "[" ++ join_comma (map Marshal_T l) ++ "]".

(** [MarshalJSON]; [None] is the panic of an index out of range. *)
Definition MarshalJSON (l : t) : option string :=
  if (length (Messages l) =? 1)%nat && IsBatch l then
    match Messages l !! 0%nat with
    | Some m => Some (Marshal_T m)
    | None => None
    end
  else Some (Marshal_slice (Messages l)).

Definition prepend_elem (cur : string) (r : option (list string * string))
  : option (list string * string) :=
  match r with
  | Some (l, tail) => Some (cur :: l, tail)
  | None => None
  end.

(** The texts of the elements of an array, read after its opening
    bracket, and the input left after the closing one; commas separate
    elements only outside strings and nested values. *)
Fixpoint splitElements (s : string) (depth : nat) (inStr esc : bool) (cur : string)
  : option (list string * string) :=
  match s with
  | EmptyString => None
  | String c rest =>
      let cur' := cur ++ String c "" in
      if inStr then
        if esc then splitElements rest depth true false cur'
        else if Ascii.eqb c backslash then splitElements rest depth true true cur'
        else if Ascii.eqb c dquote then splitElements rest depth false false cur'
        else splitElements rest depth true false cur'
      else if Ascii.eqb c dquote then splitElements rest depth true false cur'
      else if Ascii.eqb c "[" || Ascii.eqb c "{" then splitElements rest (S depth) false false cur'
      else if Ascii.eqb c "]" || Ascii.eqb c "}" then
        match depth with
        | O => if Ascii.eqb c "]" then Some ([cur], rest) else None
        | S d => splitElements rest d false false cur'
        end
      else if Ascii.eqb c "," && Nat.eqb depth 0 then
        prepend_elem cur (splitElements rest 0 false false "")
      else splitElements rest depth false false cur'
  end.

Fixpoint decodeAll (l : list string) : option (list T) :=
  match l with
  | [] => Some []
  | x :: l' =>
      match Unmarshal_T (json.trim_left x), decodeAll l' with
      | Some m, Some ms => Some (m :: ms)
      | _, _ => None
      end
  end.

(** [json.Unmarshal(data, &l.Messages)] for input that starts an
    array. *)
Definition Unmarshal_slice (data : string) : option (list T) :=
  match json.trim_left data with
  | String c rest =>
      if Ascii.eqb c "[" then
        match splitElements rest 0 false false "" with
        | Some (elems, tail) =>
            if negb (json.all_space tail) then None
            else
              match elems with
              | [e] => if json.all_space e then Some [] else decodeAll elems
              | _ => decodeAll elems
              end
        | None => None
        end
      else None
  | EmptyString => None
  end.

(** [UnmarshalJSON]: the list after the call, and whether it failed. *)
Definition UnmarshalJSON (l : t) (data : string) : t * bool :=
  match data with
  | String "[" _ =>
      match Unmarshal_slice data with
      | Some ms => ({| IsBatch := true; Messages := ms |}, false)
      | None => ({| IsBatch := true; Messages := Messages l |}, true)
      end
  | _ =>
      match Unmarshal_T data with
      | Some m => ({| IsBatch := IsBatch l; Messages := [m] |}, false)
      | None => (l, true)
      end
  end.

End WithT.

Arguments IsBatch {T} _.
Arguments Messages {T} _.
Arguments Build_t {T} _ _.

(** The zero value, as declared by [var rs messageList[T]]. *)
Definition zero {T} : t T := {| IsBatch := false; Messages := [] |}.

End messageList.

(** ** The server *)

(** [type Handler interface]: the result and the error of serving one
    request. *)
Definition Handler := RawRequest -> any * option error.

Section Handlers.

Variables I O : Type.
(** [json.Unmarshal(r.Params, &params)] and the encoding of a result. *)
Variable Unmarshal_I : RawMessage -> option I.
Variable to_any : O -> any.

(** [Call(f)]. *)
Definition Call (f : I -> O * option error) : Handler :=
  fun r =>
    match Unmarshal_I (Params r) with
    | None => (nil_any, Some (TypedError ErrInvalidParams))
    | Some params => let '(o, err) := f params in (to_any o, err)
    end.

(** [Notify(f)]. *)
Definition Notify (f : I -> option error) : Handler :=
  fun r =>
    match Unmarshal_I (Params r) with
    | None => (nil_any, Some (TypedError ErrInvalidParams))
    | Some params => (nil_any, f params)
    end.

End Handlers.

(** [sort.Search(n, f)]: binary search for the least index at which [f]
    holds. *)
Fixpoint search_loop (fuel : nat) (f : nat -> bool) (i j : nat) : nat :=
  match fuel with
  | O => i
  | S fuel' =>
      if (i <? j)%nat then
        let h := ((i + j) / 2)%nat in
        if negb (f h) then search_loop fuel' f (S h) j
        else search_loop fuel' f i h
      else i
  end.

Definition sort_Search (n : nat) (f : nat -> bool) : nat := search_loop n f 0%nat n.

(** [a >= b] on Go strings. *)
Definition string_ge (a b : string) : bool := negb (String.ltb a b).

(** The responses of one decoded unit, as written to the stream. *)
Inductive written :=
| WriteResponse (r : Response (option any))
| WriteErrorResponse (r : Response any)
| WriteArray (rs : list (Response (option any))).

(** How a call of the serving code ends: it returns, it waits for ever,
    or it panics; in each case after the writes it has made. *)
Inductive ending := Returns | BlocksForever | Panics.

Definition outcome : Type := list written * ending.

Module Server.

Record handlerInfo := { name : string; handler : Handler }.

(** [type Server struct]; the semaphore channel is the gate modelled in
    [Gate] below. *)
Record t := { handlers : list handlerInfo; maxConcurrentCalls : Z }.

Definition ServerOption := t -> t.

(** [WithMaxConcurrentCalls]; [None] is its panic. *)
Definition WithMaxConcurrentCalls (maxConcurrent : Z) : option ServerOption :=
  if maxConcurrent <=? 0 then None
  else Some (fun s => {| handlers := handlers s; maxConcurrentCalls := maxConcurrent |}).

(** [NewServer(opts...)]; the semaphore gets the capacity
    [maxConcurrentCalls]. *)
Definition NewServer (opts : list ServerOption) : t :=
  fold_left (fun s opt => opt s) opts {| handlers := []; maxConcurrentCalls := 100 |}.

Definition name_at (s : t) (i : nat) : string :=
  match handlers s !! i with
  | Some h => name h
  | None => ""
  end.

(** [ServeJSONRPC2]. *)
Definition ServeJSONRPC2 (s : t) (r : RawRequest) : any * option error :=
  let idx := sort_Search (length (handlers s)) (fun i => string_ge (name_at s i) (Method r)) in
  match handlers s !! idx with
  | Some h =>
      if negb (String.eqb (name h) (Method r))
      then (nil_any, Some (TypedError ErrMethodNotFound))
      else handler h r
  | None => (nil_any, Some (TypedError ErrMethodNotFound))
  end.

(** [On(name, m)]. *)
Definition On (s : t) (nm : string) (m : Handler) : t :=
  let idx := sort_Search (length (handlers s)) (fun i => string_ge (name_at s i) nm) in
  let hs :=
    match handlers s !! idx with
    | Some h =>
        if String.eqb (name h) nm
        then <[idx := {| name := nm; handler := m |}]> (handlers s)
        else (take idx (handlers s) ++ {| name := nm; handler := m |} :: drop idx (handlers s))%list
    | None => (take idx (handlers s) ++ {| name := nm; handler := m |} :: drop idx (handlers s))%list
    end in
  {| handlers := hs; maxConcurrentCalls := maxConcurrentCalls s |}.

(** [call]: the response to one request, nil for a request without
    identifier. *)
Definition call (s : t) (r : RawRequest) : option (Response (option any)) :=
  let '(result, err) := ServeJSONRPC2 s r in
  match req_ID r with
  | None => None
  | Some id =>
      let resp (res : option any) (e : option Error) :=
        {| resp_Jsonrpc := VersionValue; Result := res; resp_Error := e; resp_ID := Some id |} in
      match err with
      | Some e =>
          match errors_As e with
          | Some errRes => Some (resp None (Some errRes))
          | None =>
              Some (resp None
                      (Some {| Code := InternalErrorCode; Message := "Internal error";
                               Data := nil_any |}))
          end
      | None => Some (resp (Some result) None)
      end
  end.

(** The receiving loop of [callAll]: [arrivals] are the values the
    dispatch goroutines send on the channel, in the order they arrive;
    when none is left the loop waits for ever. *)
Fixpoint collect (arrivals : list (option (Response (option any))))
    (results : list (Response (option any))) (i n : nat)
  : option (list (Response (option any))) :=
  match arrivals with
  | [] => None
  | resp :: rest =>
      let results' :=
        match resp with
        | Some r => (results ++ [r])%list
        | None => results
        end in
      if (S i =? n)%nat then Some results' else collect rest results' (S i) n
  end.

(** [callAll]: every message of a batch is dispatched in a goroutine of
    its own, so the responses arrive in some order [order], a list of
    message indices. *)
Definition callAll (s : t) (rs : messageList.t RawRequest) (order : list nat) : outcome :=
  if negb (messageList.IsBatch rs) then
    match messageList.Messages rs !! 0%nat with
    | None => ([], Panics)
    | Some m =>
        match call s m with
        | Some r => ([WriteResponse r], Returns)
        | None => ([], Returns)
        end
    end
  else
    let arrivals :=
      omap (fun i => call s <$> (messageList.Messages rs !! i)) order in
    match collect arrivals [] 0%nat (length (messageList.Messages rs)) with
    | Some results => ([WriteArray results], Returns)
    | None => ([], BlocksForever)
    end.

(** An arrival order of a batch: each message index once. *)
Definition arrival_order (rs : messageList.t RawRequest) (order : list nat) : Prop :=
  Permutation order (seq 0 (length (messageList.Messages rs))).

(** One step of the loop of [ServeForOne]. *)
Inductive decoded :=
| DecodeEOF
| DecodeError
| DecodeOk (rs : messageList.t RawRequest) (order : list nat).

(** [ServeForOne] on the units its decoder yields. *)
Fixpoint ServeForOne (s : t) (units : list decoded) : outcome :=
  match units with
  | [] => ([], Returns)
  | DecodeEOF :: _ => ([], Returns)
  | DecodeError :: rest =>
      let '(w, e) := ServeForOne s rest in
      (WriteErrorResponse (NewErrorResponse (Some ID.NullID) ErrInvalidRequest) :: w, e)
  | DecodeOk rs order :: rest =>
      match callAll s rs order with
      | (w1, Returns) => let '(w2, e) := ServeForOne s rest in ((w1 ++ w2)%list, e)
      | o => o
      end
  end.

End Server.

(** ** The concurrency gate of [callAll]

    The semaphore is a buffered channel of capacity [maxConcurrentCalls],
    shared by every connection of the server.  The state counts the
    tokens in the channel and, for all batches in progress, the messages
    not yet dispatched, the loops that hold a token and have not yet
    started their goroutine, and the goroutines that have not yet
    entered, are inside, or have left [s.call]. *)
Module Gate.

Record state := {
  sem : nat;
  waiting : nat;
  acquired : nat;
  spawned : nat;
  running : nat;
  finished : nat
}.

Definition init : state :=
  {| sem := 0; waiting := 0; acquired := 0; spawned := 0; running := 0; finished := 0 |}.

(** The capacity given to the semaphore by [NewServer]. *)
Definition capacity (s : Server.t) : nat := Z.to_nat (Server.maxConcurrentCalls s).

Inductive step (cap : nat) : state -> state -> Prop :=
| step_batch st n :
    (* a connection enters the dispatch loop with a batch of [n] messages *)
    step cap st
      {| sem := sem st; waiting := waiting st + n; acquired := acquired st;
         spawned := spawned st; running := running st; finished := finished st |}
| step_acquire st w :
    (* [s.semaphore <- struct{}{}]: possible only while the channel is not full *)
    waiting st = S w -> (sem st < cap)%nat ->
    step cap st
      {| sem := S (sem st); waiting := w; acquired := S (acquired st);
         spawned := spawned st; running := running st; finished := finished st |}
| step_go st a :
    (* [go func(req RawRequest) { defer ...; ... }(req)] *)
    acquired st = S a ->
    step cap st
      {| sem := sem st; waiting := waiting st; acquired := a;
         spawned := S (spawned st); running := running st; finished := finished st |}
| step_enter st p :
    (* the goroutine enters [s.call] *)
    spawned st = S p ->
    step cap st
      {| sem := sem st; waiting := waiting st; acquired := acquired st;
         spawned := p; running := S (running st); finished := finished st |}
| step_leave st r :
    (* [s.call] ends, with a response, an error response or a panic *)
    running st = S r ->
    step cap st
      {| sem := sem st; waiting := waiting st; acquired := acquired st;
         spawned := spawned st; running := r; finished := S (finished st) |}
| step_release st f k :
    (* the deferred [<-s.semaphore] *)
    finished st = S f -> sem st = S k ->
    step cap st
      {| sem := k; waiting := waiting st; acquired := acquired st;
         spawned := spawned st; running := running st; finished := f |}.

Inductive reachable (cap : nat) : state -> Prop :=
| reach_init : reachable cap init
| reach_step st st' : reachable cap st -> step cap st st' -> reachable cap st'.

End Gate.

(** ** The client *)
Module Client.

(** A channel of responses: its buffer, its capacity and whether it has
    been closed. *)
Record chan := {
  buffer : list (Response RawMessage);
  capacity : nat;
  closed : bool
}.

(** [type Client struct]: the channels allocated so far (a channel value
    is its index), the pending-call table [ch] and the counter
    [nextID]. *)
Record t := {
  chans : list chan;
  ch : gmap Z nat;
  nextID : Z
}.

(** A step of client code returns, panics, or waits for ever. *)
Inductive result (A : Type) :=
| Done (a : A)
| Panic
| Block.
Arguments Done {A} a.
Arguments Panic {A}.
Arguments Block {A}.

Definition bind {A B} (r : result A) (k : A -> result B) : result B :=
  match r with
  | Done a => k a
  | Panic => Panic
  | Block => Block
  end.

(** The client as [NewClient] makes it. *)
Definition NewClient : t := {| chans := []; ch := ∅; nextID := 0 |}.

(** [ch <- r]. *)
Definition send (c : t) (ref : nat) (r : Response RawMessage) : result t :=
  match chans c !! ref with
  | None => Block
  | Some k =>
      if closed k then Panic
      else if (length (buffer k) <? capacity k)%nat then
        Done {| chans := <[ref := {| buffer := (buffer k ++ [r])%list; capacity := capacity k;
                                     closed := false |}]> (chans c);
                ch := ch c; nextID := nextID c |}
      else Block
  end.

(** [close(ch)]. *)
Definition close (c : t) (ref : nat) : result t :=
  match chans c !! ref with
  | None => Panic
  | Some k =>
      if closed k then Panic
      else
        Done {| chans := <[ref := {| buffer := buffer k; capacity := capacity k;
                                     closed := true |}]> (chans c);
                ch := ch c; nextID := nextID c |}
  end.

(** [<-ch]: the value received (the zero value, [None], from a closed and
    empty channel). *)
Definition recv (c : t) (ref : nat) : result (t * option (Response RawMessage)) :=
  match chans c !! ref with
  | None => Block
  | Some k =>
      match buffer k with
      | r :: rest =>
          Done ({| chans := <[ref := {| buffer := rest; capacity := capacity k;
                                        closed := closed k |}]> (chans c);
                   ch := ch c; nextID := nextID c |}, Some r)
      | [] => if closed k then Done (c, None) else Block
      end
  end.

(** [delete(c.ch, id)]. *)
Definition delete_entry (c : t) (id : Z) : t :=
  {| chans := chans c; ch := delete id (ch c); nextID := nextID c |}.

(** [onResponse]. *)
Definition onResponse (c : t) (r : Response RawMessage) : result t :=
  match resp_ID r with
  | None => Done c
  | Some rid =>
      match ID.i64 rid with
      | None => Done c
      | Some id =>
          match ch c !! id with
          | Some ref =>
              bind (send (delete_entry c id) ref r) (fun c1 => close c1 ref)
          | None => Done c
          end
      end
  end.

(** The body of the loop of [run] for one decoded unit. *)
Fixpoint onResponses (c : t) (rs : list (Response RawMessage)) : result t :=
  match rs with
  | [] => Done c
  | r :: rest => bind (onResponse c r) (fun c1 => onResponses c1 rest)
  end.

(** [makeChan]. *)
Definition makeChan (c : t) : t * (Z * nat) :=
  let id := nextID c in
  let ref := length (chans c) in
  ({| chans := (chans c ++ [{| buffer := []; capacity := 1; closed := false |}])%list;
      ch := <[id := ref]> (ch c);
      nextID := wrap_int64 (nextID c + 1) |}, (id, ref)).

(** The request that [Call] writes. *)
Definition Call_request (id : Z) (name : string) (params : any) : Request any :=
  {| req_Jsonrpc := VersionValue; Method := name; Params := params;
     req_ID := Some (ID.Int64ID id) |}.

(** What [Call] returns: the raw result to decode into the caller's
    holder, the typed error of the response, or another error. *)
Inductive call_result :=
| CallResult (raw : option RawMessage)
| CallError (e : Error)
| CallFailed (e : error).

(** The first part of [Call], up to the write: [write_err] is the error
    of [req.WriteTo], if any. *)
Definition Call_send (c : t) (write_err : option error)
  : result (t * (Z * nat) + t * call_result) :=
  let '(c1, (id, ref)) := makeChan c in
  match write_err with
  | Some err =>
      bind (close (delete_entry c1 id) ref) (fun c2 => Done (inr (c2, CallFailed err)))
  | None => Done (inl (c1, (id, ref)))
  end.

(** What wakes the [select] of [Call]: the context is done with the
    error [ctx.Err()], or the channel can be received from. *)
Inductive wake :=
| CtxDone (ctx_err : error)
| ChanReady.

(** The second part of [Call]: the [select]. *)
Definition Call_wait (c : t) (ref : nat) (w : wake) : result (t * call_result) :=
  match w with
  | CtxDone ctx_err => Done (c, CallFailed ctx_err)
  | ChanReady =>
      bind (recv c ref) (fun '(c1, res) =>
        match res with
        | Some r =>
            match resp_Error r with
            | Some e => Done (c1, CallError e)
            | None => Done (c1, CallResult (Some (Result r)))
            end
        | None => Done (c1, CallResult None)
        end)
  end.

(** [Call]: while it waits the read loop handles the responses
    [arriving]; then the [select] wakes by [w]. *)
Definition Call (c : t) (write_err : option error)
    (arriving : list (Response RawMessage)) (w : wake) : result (t * call_result) :=
  bind (Call_send c write_err) (fun r =>
    match r with
    | inr done => Done done
    | inl (c1, (_, ref)) =>
        bind (onResponses c1 arriving) (fun c2 => Call_wait c2 ref w)
    end).

(** The closure [destroy] of [Batch]. *)
Fixpoint destroy (c : t) (ids : list Z) : result t :=
  match ids with
  | [] => Done c
  | id :: rest =>
      match ch c !! id with
      | Some ref => bind (close (delete_entry c id) ref) (fun c1 => destroy c1 rest)
      | None => destroy c rest
      end
  end.

(** [Close]: every pending entry is deleted and its channel closed. *)
Definition Close (c : t) : result t :=
  destroy c (map fst (map_to_list (ch c))).

(** [type BatchRequest struct] and [type BatchResponse struct]. *)
Record BatchRequest := {
  br_Method : string;
  br_Params : any;
  IsNotify : bool
}.

Record BatchResponse := {
  bp_Method : string;
  bp_Params : any;
  bp_Result : RawMessage;
  bp_Error : option Error
}.

(** The first loop of [Batch]: the messages of the batch, the
    identifiers minted and the channel (or nil) of every request. *)
Fixpoint Batch_register (c : t) (reqs : list BatchRequest)
  : t * (list (Request any) * list Z * list (option nat)) :=
  match reqs with
  | [] => (c, ([], [], []))
  | r :: rest =>
      if IsNotify r then
        let '(c', (ms, ids, chs)) := Batch_register c rest in
        (c', ({| req_Jsonrpc := VersionValue; Method := br_Method r;
                 Params := br_Params r; req_ID := None |} :: ms, ids, None :: chs))
      else
        let '(c1, (id, ref)) := makeChan c in
        let '(c', (ms, ids, chs)) := Batch_register c1 rest in
        (c', ({| req_Jsonrpc := VersionValue; Method := br_Method r;
                 Params := br_Params r; req_ID := Some (ID.Int64ID id) |} :: ms,
              id :: ids, Some ref :: chs))
  end.

(** The message list that [Batch] hands to [WriteTo], and its JSON
    text. *)
Definition Batch_messages (c : t) (reqs : list BatchRequest) : messageList.t (Request any) :=
  {| messageList.IsBatch := true; messageList.Messages := (snd (Batch_register c reqs)).1.1 |}.

Definition Batch_written (c : t) (reqs : list BatchRequest) : option string :=
  messageList.MarshalJSON (Request any) Marshal_Request (Batch_messages c reqs).

(** The second loop of [Batch]: [wakes] tells, for every request with a
    channel, what wakes its [select]. *)
Fixpoint Batch_wait (c : t) (ids : list Z) (reqs : list BatchRequest)
    (chs : list (option nat)) (wakes : list wake)
  : result (t * (list (option BatchResponse) + error)) :=
  match reqs, chs with
  | r :: reqs', None :: chs' =>
      bind (Batch_wait c ids reqs' chs' wakes) (fun '(c', out) =>
        Done (c', match out with inl resps => inl (None :: resps) | inr e => inr e end))
  | r :: reqs', Some ref :: chs' =>
      match wakes with
      | CtxDone ctx_err :: _ => bind (destroy c ids) (fun c' => Done (c', inr ctx_err))
      | ChanReady :: wakes' =>
          bind (recv c ref) (fun '(c1, res) =>
            let resp :=
              match res with
              | Some x => {| bp_Method := br_Method r; bp_Params := br_Params r;
                             bp_Result := Result x; bp_Error := resp_Error x |}
              | None => {| bp_Method := br_Method r; bp_Params := br_Params r;
                           bp_Result := ""; bp_Error := None |}
              end in
            bind (Batch_wait c1 ids reqs' chs' wakes') (fun '(c', out) =>
              Done (c', match out with
                        | inl resps => inl (Some resp :: resps)
                        | inr e => inr e
                        end)))
      | [] => Block
      end
  | _, _ => Done (c, inl [])
  end.

(** The failed-write branch of [Call] on its own: it runs when
    [req.WriteTo] has returned, after whatever the other goroutines did
    since [makeChan]. *)
Definition Call_abort (c : t) (id : Z) (ref : nat) : result t :=
  close (delete_entry c id) ref.

(** What [dec.DecodeContext] yields in the loop of [run]. *)
Inductive decoded :=
| DecodeEOF
| DecodeError
| DecodeOk (res : messageList.t (Response RawMessage)).

(** [run] on the units its decoder yields: the loop ends at the end of
    the stream and goes on after any other decoding error. *)
Fixpoint run (c : t) (units : list decoded) : result t :=
  match units with
  | [] => Done c
  | DecodeEOF :: _ => Done c
  | DecodeError :: rest => run c rest
  | DecodeOk res :: rest =>
      bind (onResponses c (messageList.Messages res)) (fun c1 => run c1 rest)
  end.

(** A channel as [makeChan] makes it, and the same channel closed. *)
Definition fresh_chan : chan := {| buffer := []; capacity := 1; closed := false |}.
Definition closed_chan : chan := {| buffer := []; capacity := 1; closed := true |}.

(** The invariant of the pending-call table: every entry refers to an
    open, empty channel of capacity one, and no two entries share a
    channel. *)
Definition wf (c : t) : Prop :=
  (forall id ref, ch c !! id = Some ref -> chans c !! ref = Some fresh_chan)
  /\ (forall id1 id2 ref, ch c !! id1 = Some ref -> ch c !! id2 = Some ref -> id1 = id2).

End Client.

(** ** The protocol version (version.go) *)

Definition quoted (s : string) : string := String dquote (s ++ String dquote "").

Definition ErrInvalidVersion : error :=
  errors_New ("Invalid version: " ++ quoted "jsonrpc" ++ " must be exactly " ++ quoted "2.0").

(** [func (v *Version) UnmarshalJSON]: the version after the call and the
    error returned. *)
Definition Version_UnmarshalJSON (v : Version) (data : string) : Version * option error :=
  if negb (String.eqb data (quoted "2.0")) then
    (v, Some (fmt_Errorf "%w but got %s" [ErrInvalidVersion] [data]))
  else (VersionValue, None).

(** The names of the registry, in its order, and the order [On] keeps. *)
Definition registry_names (s : Server.t) : list string :=
  Server.name <$> Server.handlers s.

Definition string_lt (a b : string) : Prop := String.ltb a b = true.

Definition sorted_registry (s : Server.t) : Prop :=
  StronglySorted string_lt (registry_names s).


(** A server as a program builds it: [NewServer()] followed by calls of
    [On], in order. *)
Definition server_with (regs : list (string * Handler)) : Server.t :=
  fold_left (fun s p => Server.On s (fst p) (snd p)) regs (Server.NewServer []).

(** ** Predicates used by the properties *)

(** A valid identifier: its integer, if any, is a 64-bit signed value. *)
Definition valid_ID (id : ID.t) : Prop :=
  match ID.i64 id with
  | Some i => int64_range i
  | None => True
  end.










Definition has_ID (r : RawRequest) : bool :=
  match req_ID r with
  | Some _ => true
  | None => false
  end.

(** The calls and the notifications of a batch. *)
Definition count_calls (msgs : list RawRequest) : nat := length (filter (fun r => has_ID r = true) msgs).
Definition count_notifications (msgs : list RawRequest) : nat :=
  length (filter (fun r => has_ID r = false) msgs).

(** The reserved band of server errors. *)
Definition server_error_band (c : Z) : Prop := -32099 <= c <= -32000.

Definition named_code (c : Z) : Prop :=
  c = ParseErrorCode \/ c = InvalidRequestCode \/ c = MethodNotFoundCode
  \/ c = InvalidParamsCode \/ c = InternalErrorCode.

(** A JSON array on the wire begins with a bracket. *)
Definition is_array_text (s : string) : bool :=
  match s with
  | String c _ => Ascii.eqb c "["
  | EmptyString => false
  end.

(** The value of a string of decimal digits read after the value [n]. *)
Fixpoint digits_value (s : string) (n : Z) : Z :=
  match s with
  | EmptyString => n
  | String c rest => digits_value rest (n * 10 + (byte_val c - byte_val "0"))
  end.

Fixpoint all_digits (s : string) : bool :=
  match s with
  | EmptyString => true
  | String c rest => is_digit c && all_digits rest
  end.

(** A server whose only handler fails with an error that wraps a typed
    error, and a call of it. *)
Definition wrapping_handler : Handler :=
  fun _ => (nil_any, Some (fmt_Errorf "lookup failed: %w" [TypedError ErrInvalidParams] [])).

Definition wrapping_server : Server.t :=
  Server.On (Server.NewServer []) "lookup" wrapping_handler.

Definition wrapping_request : RawRequest :=
  NewRequest (Some (ID.Int64ID 1)) "lookup" "null".



(** A server with a method that answers and one that fails, and a batch
    of two calls around one notification. *)
Definition sample_server : Server.t :=
  Server.On
    (Server.On (Server.NewServer []) "ping" (fun _ => (any_value "1", None)))
    "fail" (fun _ => (nil_any, Some (errors_New "out of memory"))).


(** A late response for the identifier [id]. *)
Definition response_for (id : Z) (raw : RawMessage) (e : option Error) : Response RawMessage :=
  {| resp_Jsonrpc := VersionValue; Result := raw; resp_Error := e;
     resp_ID := Some (ID.Int64ID id) |}.

(** The states of the gate while one message of a batch is dispatched. *)
Definition gate_entered_batch : Gate.state :=
  {| Gate.sem := 0; Gate.waiting := 1; Gate.acquired := 0; Gate.spawned := 0;
     Gate.running := 0; Gate.finished := 0 |}.
Definition gate_acquired : Gate.state :=
  {| Gate.sem := 1; Gate.waiting := 0; Gate.acquired := 1; Gate.spawned := 0;
     Gate.running := 0; Gate.finished := 0 |}.
Definition gate_spawned : Gate.state :=
  {| Gate.sem := 1; Gate.waiting := 0; Gate.acquired := 0; Gate.spawned := 1;
     Gate.running := 0; Gate.finished := 0 |}.
Definition gate_running : Gate.state :=
  {| Gate.sem := 1; Gate.waiting := 0; Gate.acquired := 0; Gate.spawned := 0;
     Gate.running := 1; Gate.finished := 0 |}.

(** * Properties *)

(** ** Bytes and decimal numerals *)

Ltac byte_cases c :=
  destruct c as [[|] [|] [|] [|] [|] [|] [|] [|]].

Lemma byte_val_range c : 0 <= byte_val c < 256.
Proof. byte_cases c; vm_compute; split; congruence. Qed.

Lemma is_digit_val c : is_digit c = true -> 0 <= byte_val c - byte_val "0" <= 9.
Proof. byte_cases c; vm_compute; intros H; try discriminate H; split; congruence. Qed.

Lemma is_digit_not_sign c :
  is_digit c = true ->
  Ascii.eqb c "-" = false /\ Ascii.eqb c "+" = false /\ Ascii.eqb c dquote = false
  /\ Ascii.eqb c "n" = false /\ Ascii.eqb c "." = false.
Proof. byte_cases c; vm_compute; intros H; try discriminate H; repeat split. Qed.

Lemma digit_byte u :
  0 <= u < 10 ->
  is_digit (byte_of (byte_val "0" + u)) = true
  /\ byte_val (byte_of (byte_val "0" + u)) - byte_val "0" = u.
Proof.
  intros H.
  assert (u = 0 \/ u = 1 \/ u = 2 \/ u = 3 \/ u = 4 \/ u = 5 \/ u = 6 \/ u = 7
          \/ u = 8 \/ u = 9) as Hu by lia.
  repeat destruct Hu as [-> | Hu]; try subst u; vm_compute; split; reflexivity.
Qed.

Lemma formatBits_all_digits fuel : forall u acc,
  0 <= u -> all_digits acc = true -> all_digits (strconv.formatBits fuel u acc) = true.
Proof.
  induction fuel as [|fuel IH]; intros u acc Hu Hacc; simpl; [exact Hacc|].
  destruct (u <? 10) eqn:Hlt.
  - apply Z.ltb_lt in Hlt. simpl.
    destruct (digit_byte u) as [-> _]; [lia|]. exact Hacc.
  - apply IH; [apply Z.div_pos; lia|]. simpl.
    destruct (digit_byte (u mod 10)) as [-> _]; [apply Z.mod_pos_bound; lia|].
    exact Hacc.
Qed.

Lemma formatBits_value fuel : forall u acc,
  0 <= u < 10 ^ Z.of_nat fuel ->
  digits_value (strconv.formatBits fuel u acc) 0 = digits_value acc u.
Proof.
  induction fuel as [|fuel IH]; intros u acc Hu.
  - simpl in *. assert (u = 0) as -> by lia. reflexivity.
  - simpl strconv.formatBits. destruct (u <? 10) eqn:Hlt.
    + apply Z.ltb_lt in Hlt. simpl.
      destruct (digit_byte u) as [_ ->]; [lia|]. reflexivity.
    + apply Z.ltb_ge in Hlt. rewrite IH.
      * simpl. destruct (digit_byte (u mod 10)) as [_ ->];
          [apply Z.mod_pos_bound; lia|].
        f_equal. pose proof (Z.div_mod u 10). lia.
      * rewrite Nat2Z.inj_succ, Z.pow_succ_r in Hu by lia.
        split; [apply Z.div_pos; lia|].
        apply Z.div_lt_upper_bound; lia.
Qed.

Lemma formatBits_head fuel u acc :
  0 <= u ->
  exists c rest, strconv.formatBits (S fuel) u acc = String c rest /\ is_digit c = true.
Proof.
  revert u acc. induction fuel as [|fuel IH]; intros u acc Hu.
  - simpl. destruct (u <? 10) eqn:Hlt.
    + apply Z.ltb_lt in Hlt. eexists _, _. split; [reflexivity|].
      apply digit_byte; lia.
    + eexists _, _. split; [reflexivity|].
      apply digit_byte, Z.mod_pos_bound; lia.
  - change (strconv.formatBits (S (S fuel)) u acc) with
      (if u <? 10 then String (byte_of (byte_val "0" + u)) acc
       else strconv.formatBits (S fuel) (u / 10)
              (String (byte_of (byte_val "0" + u mod 10)) acc)).
    destruct (u <? 10) eqn:Hlt.
    + apply Z.ltb_lt in Hlt. eexists _, _. split; [reflexivity|].
      apply digit_byte; lia.
    + apply IH, Z.div_pos; lia.
Qed.

Lemma digits_value_ge s : forall n,
  all_digits s = true -> 0 <= n -> n <= digits_value s n.
Proof.
  induction s as [|c s IH]; intros n Hd Hn; simpl in *; [lia|].
  apply andb_true_iff in Hd as [Hc Hs].
  pose proof (is_digit_val c Hc).
  specialize (IH (n * 10 + (byte_val c - byte_val "0")) Hs). lia.
Qed.

Lemma parseDigits_value s : forall n,
  all_digits s = true -> 0 <= n -> digits_value s n <= maxUint64 ->
  strconv.parseDigits s n = inl (digits_value s n).
Proof.
  induction s as [|c s IH]; intros n Hd Hn Hmax; simpl in *; [reflexivity|].
  apply andb_true_iff in Hd as [Hc Hs]. rewrite Hc.
  pose proof (is_digit_val c Hc) as Hv.
  pose proof (digits_value_ge s (n * 10 + (byte_val c - byte_val "0")) Hs) as Hge.
  unfold maxUint64, wrap_uint64 in *.
  change (2 ^ 64) with 18446744073709551616 in *.
  change ((18446744073709551616 - 1) / 10 + 1) with 1844674407370955162.
  destruct (n >=? 1844674407370955162) eqn:Hcut; [lia|].
  rewrite Z.mod_small by lia.
  destruct (n * 10 + (byte_val c - byte_val "0") <? n * 10) eqn:H1; [lia|].
  destruct (n * 10 + (byte_val c - byte_val "0") >? 18446744073709551616 - 1) eqn:H2; [lia|].
  simpl. apply IH; [exact Hs|lia|lia].
Qed.

Lemma ParseInt_FormatInt i :
  int64_range i -> strconv.ParseInt (strconv.FormatInt i) = inl i.
Proof.
  unfold int64_range, minInt64, maxInt64. intros Hi.
  change (2 ^ 63) with 9223372036854775808 in Hi.
  unfold strconv.FormatInt, wrap_uint64.
  change (2 ^ 64) with 18446744073709551616.
  destruct (i <? 0) eqn:Hneg.
  - apply Z.ltb_lt in Hneg.
    assert (- (i mod 18446744073709551616) mod 18446744073709551616 = - i) as ->.
    { replace (i mod 18446744073709551616) with (i + 18446744073709551616).
      - replace (- (i + 18446744073709551616)) with (- i + (-1) * 18446744073709551616) by lia.
        rewrite Z_mod_plus_full. apply Z.mod_small. lia.
      - symmetry. replace i with (i + 18446744073709551616 + (-1) * 18446744073709551616) at 1 by lia.
        rewrite Z_mod_plus_full. apply Z.mod_small. lia. }
    destruct (formatBits_head 19 (- i) "") as (c & rest & Heq & Hc); [lia|].
    unfold strconv.ParseInt. simpl Ascii.eqb. simpl orb.
    cbv iota beta. unfold strconv.ParseUint.
    rewrite Heq, <- Heq.
    rewrite parseDigits_value.
    + rewrite formatBits_value by lia. simpl digits_value.
      unfold wrap_int64. change (2 ^ 63) with 9223372036854775808.
      change (2 ^ 64) with 18446744073709551616.
      replace (negb true && (- i >=? 9223372036854775808)) with false by reflexivity.
      destruct (- i >? 9223372036854775808) eqn:Hgt; [lia|]. simpl.
      f_equal.
      destruct (Z.eq_dec i (-9223372036854775808)) as [-> | Hne]; [reflexivity|].
      rewrite (Z.mod_small (- i + 9223372036854775808)) by lia.
      replace (- (- i + 9223372036854775808 - 9223372036854775808) + 9223372036854775808)
        with (i + 9223372036854775808) by lia.
      rewrite Z.mod_small by lia. lia.
    + apply formatBits_all_digits; [lia|reflexivity].
    + lia.
    + rewrite formatBits_value by lia. simpl. unfold maxUint64. lia.
  - apply Z.ltb_ge in Hneg.
    rewrite Z.mod_small by lia.
    destruct (formatBits_head 19 i "") as (c & rest & Heq & Hc); [lia|].
    destruct (is_digit_not_sign c Hc) as (Hm & Hp & _).
    unfold strconv.ParseInt. rewrite Heq, Hm, Hp. simpl orb. cbv iota beta.
    unfold strconv.ParseUint. rewrite <- Heq.
    rewrite parseDigits_value.
    + rewrite formatBits_value by lia. simpl digits_value.
      unfold wrap_int64. change (2 ^ 63) with 9223372036854775808.
      change (2 ^ 64) with 18446744073709551616.
      destruct (i >=? 9223372036854775808) eqn:Hge; [lia|]. simpl.
      f_equal. rewrite Z.mod_small by lia. lia.
    + apply formatBits_all_digits; [lia|reflexivity].
    + lia.
    + rewrite formatBits_value by lia. simpl. unfold maxUint64. lia.
Qed.

(** ** JSON strings *)

Lemma prepend_Some x d rest :
  json.prepend x (Some (d, rest)) = Some ((x ++ d)%string, rest).
Proof. reflexivity. Qed.





(** ** The display form of strings *)




(** ** The cases of the package's tests *)

Example TestID_integer :
  ID.UnmarshalJSON "123" = (ID.Int64ID 123, None)
  /\ ID.Raw (ID.Int64ID 123) = ID.raw_int 123
  /\ ID.String (fun _ => true) (ID.Int64ID 123) = "123"
  /\ ID.MarshalJSON (ID.Int64ID 123) = "123".
Proof. repeat split. Qed.

Example TestID_string :
  ID.UnmarshalJSON (json.Marshal_string "hello") = (ID.StringID "hello", None)
  /\ ID.Raw (ID.StringID "hello") = ID.raw_string "hello"
  /\ ID.String (fun _ => true) (ID.StringID "hello") = String dquote ("hello" ++ String dquote "")
  /\ ID.MarshalJSON (ID.StringID "hello") = String dquote ("hello" ++ String dquote "").
Proof. repeat split. Qed.

Example TestID_null :
  ID.UnmarshalJSON "null" = (ID.NullID, None)
  /\ ID.Raw ID.NullID = ID.raw_nil
  /\ ID.String (fun _ => true) ID.NullID = "null"
  /\ ID.MarshalJSON ID.NullID = "null".
Proof. repeat split. Qed.

Example TestID_quoted_null :
  ID.UnmarshalJSON (String dquote ("null" ++ String dquote "")) = (ID.StringID "null", None).
Proof. reflexivity. Qed.

Example TestID_fraction :
  ID.UnmarshalJSON "123.456"
  = (ID.NullID, Some (fmt_Errorf "%w but got %q" [ErrInvalidIDType] ["123.456"])).
Proof. reflexivity. Qed.

Example TestServer_noSuchMethod :
  Server.call sample_server (NewRequest (Some (ID.Int64ID 123)) "noSuchMethod" "null")
  = Some {| resp_Jsonrpc := "2.0"; Result := None; resp_Error := Some ErrMethodNotFound;
            resp_ID := Some (ID.Int64ID 123) |}.
Proof. reflexivity. Qed.

Example TestServer_notification :
  Server.call sample_server (NewRequest None "ping" "null") = None.
Proof. reflexivity. Qed.

Example TestServer_call :
  Server.call sample_server (NewRequest (Some (ID.Int64ID 123)) "ping" "null")
  = Some {| resp_Jsonrpc := "2.0"; Result := Some (any_value "1"); resp_Error := None;
            resp_ID := Some (ID.Int64ID 123) |}.
Proof. reflexivity. Qed.

Example FormatInt_min : strconv.FormatInt minInt64 = "-9223372036854775808".
Proof. reflexivity. Qed.

Example ParseInt_min : strconv.ParseInt "-9223372036854775808" = inl minInt64.
Proof. reflexivity. Qed.

Example ParseInt_beyond : strconv.ParseInt "9223372036854775808" = inr strconv.ErrRange.
Proof. reflexivity. Qed.

(** ** Identifiers *)



(** Input that begins like a number and is not a 64-bit integer is
    refused, and the identifier is left null. *)
Lemma UnmarshalJSON_not_integer c rest e :
  c = "-"%char \/ is_digit c = true ->
  strconv.ParseInt (String c rest) = inr e ->
  ID.UnmarshalJSON (String c rest)
  = (ID.NullID, Some (fmt_Errorf "%w but got %q" [ErrInvalidIDType] [String c rest])).
Proof.
  intros Hc Hparse. unfold ID.UnmarshalJSON. rewrite Hparse.
  assert (Ascii.eqb c "n" = false /\ Ascii.eqb c dquote = false
          /\ Ascii.eqb c "-" || is_digit c = true) as (Hn & Hq & Hnum).
  { destruct Hc as [-> | Hd]; [repeat split|].
    destruct (is_digit_not_sign c Hd) as (_ & _ & Hq & Hn & _).
    rewrite Hd, orb_true_r. repeat split; assumption. }
  assert (String.eqb (String c rest) "null" = false) as ->.
  { simpl. rewrite Hn. reflexivity. }
  simpl String.length. simpl orb. cbv iota zeta.
  rewrite Hnum, Hq. reflexivity.
Qed.

Lemma InvalidIDType_wrapped data :
  errors_Is ErrInvalidIDType (fmt_Errorf "%w but got %q" [ErrInvalidIDType] [data]).
Proof. eapply Is_wrapped; [left; reflexivity|apply Is_here]. Qed.








(** C10: input whose first byte is a digit or a minus sign and which
    [strconv.ParseInt] does not accept as a 64-bit signed integer makes
    [UnmarshalJSON] fail with an error that wraps [ErrInvalidIDType]; the
    identifier holds neither a string nor an integer. *)
Theorem UnmarshalJSON_rejects_unparsable_integer (c : ascii) (rest : string)
    (e : strconv.NumError) :
  c = "-"%char \/ is_digit c = true ->
  strconv.ParseInt (String c rest) = inr e ->
  exists err,
    ID.UnmarshalJSON (String c rest) = (ID.NullID, Some err)
    /\ errors_Is ErrInvalidIDType err
    /\ ID.Raw (fst (ID.UnmarshalJSON (String c rest))) = ID.raw_nil.
Proof.
  intros Hc He. eexists. rewrite (UnmarshalJSON_not_integer c rest e Hc He).
  split; [reflexivity|]. split; [apply InvalidIDType_wrapped|reflexivity].
Qed.

Lemma UnmarshalJSON_rejects_unparsable_integer_witness :
  exists err,
    ID.UnmarshalJSON "9223372036854775808" = (ID.NullID, Some err)
    /\ errors_Is ErrInvalidIDType err
    /\ ID.Raw (fst (ID.UnmarshalJSON "9223372036854775808")) = ID.raw_nil.
Proof.
  apply (UnmarshalJSON_rejects_unparsable_integer "9" "223372036854775808" strconv.ErrRange).
  - right. reflexivity.
  - reflexivity.
Defined.




(** ** Error codes *)

Lemma ErrorCode_String_in_band c :
  server_error_band c -> ErrorCode_String c = Sprintf_code "Error" c.
Proof.
  unfold server_error_band, ErrorCode_String, ParseErrorCode, InvalidRequestCode,
    MethodNotFoundCode, InvalidParamsCode, InternalErrorCode.
  intros H.
  repeat match goal with
         | |- context [?a =? ?b] => destruct (Z.eqb_spec a b); [lia|]
         end.
  destruct (Z.leb_spec (-32000) c); destruct (Z.leb_spec c (-32099)); simpl;
    try reflexivity; lia.
Qed.

Lemma Sprintf_code_prefix_differs c :
  Sprintf_code "Error" c <> Sprintf_code "Server error" c.
Proof.
  unfold Sprintf_code.
  change ("Error" ++ " (" ++ strconv.FormatInt c ++ ")")%string
    with (String "E" ("rror" ++ " (" ++ strconv.FormatInt c ++ ")")%string).
  change ("Server error" ++ " (" ++ strconv.FormatInt c ++ ")")%string
    with (String "S" ("erver error" ++ " (" ++ strconv.FormatInt c ++ ")")%string).
  intros H. discriminate H.
Qed.

(** C9, on the code: the test of [ErrorCode.String] for the band of
    server errors has its bounds exchanged, so no code passes it; every
    code of the band that is not a named code is rendered as
    [Error (<code>)] and not as [Server error (<code>)]. *)
Theorem ErrorCode_String_server_band_missed (c : Z) :
  server_error_band c ->
  ErrorCode_String c = Sprintf_code "Error" c
  /\ ErrorCode_String c <> Sprintf_code "Server error" c.
Proof.
  intros H. rewrite (ErrorCode_String_in_band c H).
  split; [reflexivity|apply Sprintf_code_prefix_differs].
Qed.

Lemma ErrorCode_String_server_band_missed_witness :
  ErrorCode_String (-32050) = Sprintf_code "Error" (-32050)
  /\ ErrorCode_String (-32050) <> Sprintf_code "Server error" (-32050).
Proof.
  apply (ErrorCode_String_server_band_missed (-32050)).
  unfold server_error_band. lia.
Defined.

(** ** The batch wrapper *)

Lemma MarshalJSON_one_element_batch T (marshal : T -> string) m :
  messageList.MarshalJSON T marshal {| messageList.IsBatch := true; messageList.Messages := [m] |}
  = Some (marshal m).
Proof. reflexivity. Qed.

Lemma MarshalJSON_one_element_single T (marshal : T -> string) m :
  messageList.MarshalJSON T marshal {| messageList.IsBatch := false; messageList.Messages := [m] |}
  = Some ("[" ++ marshal m ++ "]")%string.
Proof. reflexivity. Qed.

Lemma Marshal_Request_not_array r : is_array_text (Marshal_Request r) = false.
Proof. reflexivity. Qed.

(** C2, on the code: the test of [messageList.MarshalJSON] lacks a
    negation, so a list whose flag is set and that has exactly one
    element is written as that element alone; a batch of one request sent
    by [Client.Batch] goes out as a JSON object, not as an array. *)
Theorem Batch_of_one_not_written_as_array (c : Client.t) (r : Client.BatchRequest) :
  messageList.IsBatch (Client.Batch_messages c [r]) = true
  /\ length (messageList.Messages (Client.Batch_messages c [r])) = 1%nat
  /\ exists text, Client.Batch_written c [r] = Some text /\ is_array_text text = false.
Proof.
  unfold Client.Batch_written, Client.Batch_messages, Client.Batch_register.
  destruct (Client.IsNotify r); simpl.
  - repeat split. eexists. split; [reflexivity|apply Marshal_Request_not_array].
  - repeat split. eexists. split; [reflexivity|apply Marshal_Request_not_array].
Qed.

Lemma Unmarshal_empty_array T (U : string -> option T) :
  messageList.UnmarshalJSON T U messageList.zero "[]"
  = ({| messageList.IsBatch := true; messageList.Messages := [] |}, false).
Proof. reflexivity. Qed.

(** ** The server *)

Lemma arrivals_of_empty s order :
  omap (fun i : nat => Server.call s <$> (@nil RawRequest !! i)) order = [].
Proof. induction order as [|i order IH]; [reflexivity|exact IH]. Qed.

Lemma callAll_empty_batch s order :
  Server.callAll s {| messageList.IsBatch := true; messageList.Messages := [] |} order
  = ([], BlocksForever).
Proof.
  unfold Server.callAll. simpl negb. cbv iota. simpl messageList.Messages.
  rewrite arrivals_of_empty. reflexivity.
Qed.

(** C4, on the code: the input [[]] decodes without error as a batch of
    length zero, but then [callAll] waits for a response on a channel
    that nobody sends to: the server writes nothing for the empty batch,
    no protocol error either, and handles no later input of the
    connection. *)
Theorem empty_batch_blocks_server (U : string -> option RawRequest) (s : Server.t)
    (order : list nat) (later : list Server.decoded) :
  exists rs,
    messageList.UnmarshalJSON RawRequest U messageList.zero "[]" = (rs, false)
    /\ messageList.IsBatch rs = true
    /\ length (messageList.Messages rs) = 0%nat
    /\ Server.ServeForOne s (Server.DecodeOk rs order :: later) = ([], BlocksForever).
Proof.
  eexists. split; [apply Unmarshal_empty_array|]. repeat split.
  simpl Server.ServeForOne. rewrite callAll_empty_batch. reflexivity.
Qed.

Lemma call_with_ID s r id result err :
  req_ID r = Some id ->
  Server.ServeJSONRPC2 s r = (result, err) ->
  Server.call s r =
    Some {| resp_Jsonrpc := VersionValue;
            Result := match err with Some _ => None | None => Some result end;
            resp_Error :=
              match err with
              | Some e =>
                  Some (match errors_As e with
                        | Some errRes => errRes
                        | None => {| Code := InternalErrorCode; Message := "Internal error";
                                     Data := nil_any |}
                        end)
              | None => None
              end;
            resp_ID := Some id |}.
Proof.
  intros Hid Hserve. unfold Server.call. rewrite Hserve, Hid.
  destruct err as [e|]; [|reflexivity].
  destruct (errors_As e); reflexivity.
Qed.

Lemma call_without_ID s r : req_ID r = None -> Server.call s r = None.
Proof.
  intros H. unfold Server.call. rewrite H.
  destruct (Server.ServeJSONRPC2 s r). reflexivity.
Qed.

(** C6 as stated fails: a handler error that is not the typed [Error]
    but wraps one is not answered with [InternalError]; the response
    carries the wrapped error (here code -32602). *)
Lemma wrapped_error_not_internal :
  Server.ServeJSONRPC2 wrapping_server wrapping_request
  = (nil_any, Some (fmt_Errorf "lookup failed: %w" [TypedError ErrInvalidParams] []))
  /\ Server.call wrapping_server wrapping_request
     = Some {| resp_Jsonrpc := VersionValue; Result := None;
               resp_Error := Some ErrInvalidParams; resp_ID := Some (ID.Int64ID 1) |}
  /\ Code ErrInvalidParams <> InternalErrorCode.
Proof. repeat split. discriminate. Qed.

(** C6, amended: for every request with an identifier whose handler
    returns a non-nil error, the response has no result and, if the error
    is the typed [Error] or wraps one (so that [errors.As] finds it),
    carries that error's code, message and data unchanged; for every other
    non-nil error it carries code -32603 and message "Internal error" with
    no data. *)
Theorem call_error_response (s : Server.t) (r : RawRequest) (id : ID.t)
    (result : any) (err : error) :
  req_ID r = Some id ->
  Server.ServeJSONRPC2 s r = (result, Some err) ->
  exists resp,
    Server.call s r = Some resp
    /\ Result resp = None
    /\ resp_ID resp = Some id
    /\ (forall e, err = TypedError e -> resp_Error resp = Some e)
    /\ (forall e, errors_As err = Some e -> resp_Error resp = Some e)
    /\ (errors_As err = None ->
        resp_Error resp
        = Some {| Code := -32603; Message := "Internal error"; Data := nil_any |}).
Proof.
  intros Hid Hserve. eexists. split; [apply (call_with_ID s r id result _ Hid Hserve)|].
  simpl. repeat split.
  - intros e ->. reflexivity.
  - intros e ->. reflexivity.
  - intros ->. reflexivity.
Qed.

Lemma call_error_response_witness :
  exists resp,
    Server.call wrapping_server wrapping_request = Some resp
    /\ Result resp = None
    /\ resp_ID resp = Some (ID.Int64ID 1)
    /\ (forall e, fmt_Errorf "lookup failed: %w" [TypedError ErrInvalidParams] []
                  = TypedError e -> resp_Error resp = Some e)
    /\ (forall e, errors_As (fmt_Errorf "lookup failed: %w" [TypedError ErrInvalidParams] [])
                  = Some e -> resp_Error resp = Some e)
    /\ (errors_As (fmt_Errorf "lookup failed: %w" [TypedError ErrInvalidParams] []) = None ->
        resp_Error resp
        = Some {| Code := -32603; Message := "Internal error"; Data := nil_any |}).
Proof.
  apply (call_error_response wrapping_server wrapping_request (ID.Int64ID 1) nil_any).
  - reflexivity.
  - reflexivity.
Defined.

(** *** Batches *)

Lemma collect_cons resp rest results i n :
  Server.collect (resp :: rest) results i n
  = if (S i =? n)%nat
    then Some (match resp with Some r => (results ++ [r])%list | None => results end)
    else Server.collect rest
           (match resp with Some r => (results ++ [r])%list | None => results end) (S i) n.
Proof. reflexivity. Qed.

Lemma collect_all arrivals : forall results i n,
  (i < n)%nat -> length arrivals = (n - i)%nat ->
  Server.collect arrivals results i n = Some (results ++ omap id arrivals)%list.
Proof.
  induction arrivals as [|resp rest IH]; intros results i n Hlt Hlen; simpl in Hlen; [lia|].
  rewrite collect_cons. destruct (Nat.eqb_spec (S i) n) as [Heq | Hne].
  - destruct rest; [|simpl in Hlen; lia].
    destruct resp; simpl; [reflexivity|]. now rewrite app_nil_r.
  - rewrite IH by lia. destruct resp; simpl; [|reflexivity].
    now rewrite <- app_assoc.
Qed.

Lemma omap_lookup_seq {A B} (f : A -> B) (l : list A) : forall pre : list A,
  omap (fun i : nat => f <$> ((pre ++ l)%list !! i)) (seq (length pre) (length l)) = f <$> l.
Proof.
  induction l as [|x l IH]; intros pre; [reflexivity|].
  simpl seq. simpl omap. rewrite list_lookup_middle by reflexivity. simpl.
  f_equal. specialize (IH (pre ++ [x])%list).
  rewrite <- app_assoc, length_app in IH. simpl in IH.
  rewrite Nat.add_1_r in IH. exact IH.
Qed.

Lemma arrivals_permutation s rs order :
  Server.arrival_order rs order ->
  Permutation
    (omap (fun i : nat => Server.call s <$> (messageList.Messages rs !! i)) order)
    (Server.call s <$> messageList.Messages rs).
Proof.
  unfold Server.arrival_order. intros H.
  rewrite H. rewrite <- (omap_lookup_seq (Server.call s) (messageList.Messages rs) []).
  reflexivity.
Qed.

Lemma responses_count s msgs :
  length (omap id (Server.call s <$> msgs)) = count_calls msgs.
Proof.
  unfold count_calls. induction msgs as [|r msgs IH]; [reflexivity|].
  rewrite fmap_cons. destruct (req_ID r) as [rid|] eqn:Hid.
  - destruct (Server.ServeJSONRPC2 s r) as [result err] eqn:Hserve.
    rewrite (call_with_ID s r rid result err Hid Hserve).
    rewrite filter_cons_True by (unfold has_ID; now rewrite Hid).
    cbn [omap list_omap id length]. f_equal. exact IH.
  - rewrite (call_without_ID s r Hid).
    rewrite filter_cons_False by (unfold has_ID; now rewrite Hid).
    cbn [omap list_omap id]. exact IH.
Qed.

Lemma callAll_batch s rs order :
  messageList.IsBatch rs = true ->
  messageList.Messages rs <> [] ->
  Server.arrival_order rs order ->
  exists results,
    Server.callAll s rs order = ([WriteArray results], Returns)
    /\ length results = count_calls (messageList.Messages rs).
Proof.
  intros Hbatch Hne Hord. unfold Server.callAll. rewrite Hbatch. simpl negb. cbv iota zeta.
  pose proof (arrivals_permutation s rs order Hord) as Hperm.
  rewrite collect_all.
  - eexists. split; [reflexivity|]. simpl.
    rewrite Hperm. apply responses_count.
  - destruct (messageList.Messages rs); [congruence|simpl; lia].
  - rewrite Hperm, length_fmap. lia.
Qed.




(** ** The concurrency gate *)

Lemma gate_invariant cap st :
  Gate.reachable cap st ->
  Gate.sem st = (Gate.acquired st + Gate.spawned st + Gate.running st + Gate.finished st)%nat
  /\ (Gate.sem st <= cap)%nat.
Proof.
  induction 1 as [|st st' Hreach [IHsem IHcap] Hstep]; [simpl; lia|].
  destruct Hstep; simpl in *; lia.
Qed.

Lemma WithMaxConcurrentCalls_capacity n :
  0 < n ->
  exists opt, Server.WithMaxConcurrentCalls n = Some opt
              /\ Gate.capacity (Server.NewServer [opt]) = Z.to_nat n.
Proof.
  intros H. unfold Server.WithMaxConcurrentCalls.
  destruct (Z.leb_spec n 0); [lia|]. eexists. split; reflexivity.
Qed.

(** C7: a server made by [NewServer] has the bound 100 unless an option
    sets another one; in every state that the dispatch loops and their
    goroutines can reach, the goroutines inside a handler dispatch are at
    most as many as the bound, because every goroutine between its start
    and its deferred release, however its dispatch ended, accounts for
    one token of the semaphore. *)
Theorem concurrent_dispatches_bounded (opts : list Server.ServerOption) (st : Gate.state) :
  Gate.reachable (Gate.capacity (Server.NewServer opts)) st ->
  (Gate.running st <= Gate.capacity (Server.NewServer opts))%nat
  /\ Gate.sem st
     = (Gate.acquired st + Gate.spawned st + Gate.running st + Gate.finished st)%nat
  /\ Gate.capacity (Server.NewServer []) = 100%nat.
Proof.
  intros H. destruct (gate_invariant _ _ H) as [Hsem Hcap].
  repeat split; [lia|exact Hsem].
Qed.

Lemma concurrent_dispatches_bounded_witness :
  (Gate.running gate_running <= Gate.capacity (Server.NewServer []))%nat
  /\ Gate.sem gate_running
     = (Gate.acquired gate_running + Gate.spawned gate_running
        + Gate.running gate_running + Gate.finished gate_running)%nat
  /\ Gate.capacity (Server.NewServer []) = 100%nat.
Proof.
  apply (concurrent_dispatches_bounded [] gate_running).
  apply (Gate.reach_step _ gate_spawned);
    [|exact (Gate.step_enter _ gate_spawned 0%nat eq_refl)].
  apply (Gate.reach_step _ gate_acquired);
    [|exact (Gate.step_go _ gate_acquired 0%nat eq_refl)].
  apply (Gate.reach_step _ gate_entered_batch).
  - apply (Gate.reach_step _ Gate.init); [apply Gate.reach_init|].
    exact (Gate.step_batch _ Gate.init 1%nat).
  - refine (Gate.step_acquire _ gate_entered_batch 0%nat eq_refl _).
    vm_compute. lia.
Defined.

(** ** The client *)

Lemma makeChan_channel c :
  Client.chans (fst (Client.makeChan c)) !! length (Client.chans c)
  = Some {| Client.buffer := []; Client.capacity := 1; Client.closed := false |}.
Proof. simpl. now rewrite list_lookup_middle. Qed.

Lemma destroy_keeps_absent ids : forall c c' id,
  Client.ch c !! id = None -> Client.destroy c ids = Client.Done c' ->
  Client.ch c' !! id = None.
Proof.
  induction ids as [|i ids IH]; intros c c' id Hnone Hd; simpl in Hd.
  - now inversion Hd; subst.
  - destruct (Client.ch c !! i) as [ref|] eqn:Hi; [|eapply IH; eassumption].
    unfold Client.close in Hd. simpl in Hd.
    destruct (Client.chans c !! ref) as [k|]; [|discriminate Hd].
    destruct (Client.closed k); [discriminate Hd|]. simpl in Hd.
    eapply IH; [|exact Hd]. simpl.
    destruct (decide (i = id)) as [->|Hne];
      [apply lookup_delete_eq|now rewrite lookup_delete_ne].
Qed.

(** The cancellation path of [Batch] removes the entries it made. *)
Lemma destroy_removes ids : forall c c' id,
  In id ids -> Client.destroy c ids = Client.Done c' -> Client.ch c' !! id = None.
Proof.
  induction ids as [|i ids IH]; intros c c' id Hin Hd; [destruct Hin|].
  simpl in Hd. destruct (Client.ch c !! i) as [ref|] eqn:Hi.
  - unfold Client.close in Hd. simpl in Hd.
    destruct (Client.chans c !! ref) as [k|]; [|discriminate Hd].
    destruct (Client.closed k); [discriminate Hd|]. simpl in Hd.
    destruct (decide (i = id)) as [->|Hne].
    + eapply destroy_keeps_absent; [|exact Hd]. simpl. apply lookup_delete_eq.
    + destruct Hin as [->|Hin]; [congruence|]. eapply IH; eassumption.
  - destruct (decide (i = id)) as [->|Hne].
    + eapply destroy_keeps_absent; eassumption.
    + destruct Hin as [->|Hin]; [congruence|]. eapply IH; eassumption.
Qed.

(** The path of [Call] for a failed write removes the entry it made. *)
Lemma Call_write_error_removes_entry c err arriving w :
  exists c', Client.Call c (Some err) arriving w = Client.Done (c', Client.CallFailed err)
             /\ Client.ch c' !! Client.nextID c = None.
Proof.
  unfold Client.Call, Client.Call_send, Client.close. simpl.
  rewrite list_lookup_middle by reflexivity. simpl.
  eexists. split; [reflexivity|]. simpl. apply lookup_delete_eq.
Qed.

(** C1, on the code: when the context is cancelled before a response
    arrives, [Call] returns the error of the context, but its [select]
    leaves the table as it is: the entry of the minted identifier is still
    there after [Call] has returned (the paths of a failed write and of a
    cancelled [Batch] do remove theirs).  A late response for the
    identifier is then delivered to the abandoned channel and the entry
    removed, without panic. *)
Theorem Call_cancelled_keeps_entry (c : Client.t) (ctx_err : error)
    (raw : RawMessage) (e : option Error) :
  exists c' ref,
    Client.Call c None [] (Client.CtxDone ctx_err) = Client.Done (c', Client.CallFailed ctx_err)
    /\ Client.ch c' !! Client.nextID c = Some ref
    /\ exists c'',
         Client.onResponse c' (response_for (Client.nextID c) raw e) = Client.Done c''
         /\ Client.ch c'' !! Client.nextID c = None.
Proof.
  unfold Client.Call, Client.Call_send. simpl.
  eexists _, _. split; [reflexivity|]. simpl. split; [apply lookup_insert_eq|].
  unfold Client.onResponse. simpl. rewrite lookup_insert_eq.
  unfold Client.send. simpl. rewrite list_lookup_middle by reflexivity. simpl.
  unfold Client.close. simpl.
  rewrite list_lookup_insert_eq by (rewrite length_app; simpl; lia). simpl.
  eexists. split; [reflexivity|]. simpl. apply lookup_delete_eq.
Qed.

(** * Further properties of the code *)

(** ** Identifiers: what decoding yields *)

Lemma wrap_int64_range x : int64_range (wrap_int64 x).
Proof.
  unfold int64_range, wrap_int64, minInt64, maxInt64.
  change (2 ^ 63) with 9223372036854775808. change (2 ^ 64) with 18446744073709551616.
  pose proof (Z.mod_pos_bound (x + 9223372036854775808) 18446744073709551616). lia.
Qed.

Lemma ParseInt_range s i : strconv.ParseInt s = inl i -> int64_range i.
Proof.
  unfold strconv.ParseInt. destruct s as [|c rest]; [discriminate|].
  cbv zeta.
  destruct (strconv.ParseUint (if Ascii.eqb c "+" || Ascii.eqb c "-" then rest else String c rest))
    as [un|[|]]; try discriminate.
  destruct (negb (Ascii.eqb c "-") && (un >=? 2 ^ 63)); [discriminate|].
  destruct (Ascii.eqb c "-" && (un >? 2 ^ 63)); [discriminate|].
  intros H. injection H as <-. destruct (Ascii.eqb c "-"); apply wrap_int64_range.
Qed.

Lemma Unmarshal_string_quoted rest p :
  json.Unmarshal_string (String dquote rest) = Some p -> exists d, p = Some d.
Proof.
  unfold json.Unmarshal_string.
  change (json.trim_left (String dquote rest)) with (String dquote rest).
  change (Ascii.eqb dquote dquote) with true. cbv iota.
  destruct (json.unquoteLoop 0 rest) as [[d tail]|]; [|discriminate].
  destruct (json.all_space tail); [|discriminate].
  intros H. injection H as <-. eexists. reflexivity.
Qed.

(** The four ways [UnmarshalJSON] can end. *)
Lemma UnmarshalJSON_cases data :
  ((data = "null" \/ data = "") /\ ID.UnmarshalJSON data = (ID.NullID, None))
  \/ (exists i, strconv.ParseInt data = inl i
                /\ ID.UnmarshalJSON data = (ID.Int64ID i, None))
  \/ (exists d, ID.UnmarshalJSON data = (ID.StringID d, None)
                /\ json.Unmarshal_string data = Some (Some d))
  \/ (data <> "null" /\ data <> ""
      /\ ID.UnmarshalJSON data
         = (ID.NullID, Some (fmt_Errorf "%w but got %q" [ErrInvalidIDType] [data]))).
Proof.
  unfold ID.UnmarshalJSON.
  destruct (String.eqb_spec data "null") as [-> | Hnull]; [left; split; [left|]; reflexivity|].
  destruct data as [|c rest]; [left; split; [right|]; reflexivity|].
  simpl String.length. simpl orb. cbv iota zeta.
  assert (String c rest <> "") as Hne by discriminate.
  destruct (Ascii.eqb c "-" || is_digit c) eqn:Hnum.
  - destruct (strconv.ParseInt (String c rest)) as [i|e] eqn:Hparse.
    + right. left. exists i. split; reflexivity.
    + destruct (Ascii.eqb c dquote) eqn:Hq.
      * apply Ascii.eqb_eq in Hq. subst c. discriminate Hnum.
      * right. right. right. repeat split; assumption.
  - destruct (Ascii.eqb c dquote) eqn:Hq.
    + apply Ascii.eqb_eq in Hq. subst c.
      destruct (json.Unmarshal_string (String dquote rest)) as [p|] eqn:Hp.
      * destruct (Unmarshal_string_quoted rest p Hp) as [d ->].
        right. right. left. exists d. split; reflexivity.
      * right. right. right. repeat split; assumption.
    + right. right. right. repeat split; assumption.
Qed.

(** X1: an identifier that [UnmarshalJSON] accepts holds at most one of an
    integer and a string, and its integer, if any, is the 64-bit value
    that [strconv.ParseInt] reads from the input. *)
Theorem UnmarshalJSON_accepts_one_representation (data : string) (id : ID.t) :
  ID.UnmarshalJSON data = (id, None) ->
  valid_ID id
  /\ (ID.i64 id = None \/ ID.str id = None)
  /\ (forall i, ID.i64 id = Some i -> strconv.ParseInt data = inl i).
Proof.
  intros H.
  destruct (UnmarshalJSON_cases data)
    as [[_ Hc] | [(i & Hp & Hc) | [(d & Hc & _) | (_ & _ & Hc)]]];
    rewrite Hc in H; try discriminate H; injection H as <-; unfold valid_ID; simpl.
  - repeat split; [left; reflexivity|discriminate].
  - split; [apply (ParseInt_range data i Hp)|].
    split; [right; reflexivity|]. intros i' Hi. injection Hi as <-. exact Hp.
  - repeat split; [left; reflexivity|discriminate].
Qed.

Lemma UnmarshalJSON_accepts_one_representation_witness :
  valid_ID (ID.Int64ID (-42))
  /\ (ID.i64 (ID.Int64ID (-42)) = None \/ ID.str (ID.Int64ID (-42)) = None)
  /\ (forall i, ID.i64 (ID.Int64ID (-42)) = Some i -> strconv.ParseInt "-42" = inl i).
Proof.
  apply (UnmarshalJSON_accepts_one_representation "-42" (ID.Int64ID (-42))).
  reflexivity.
Defined.









(** ** The protocol version *)

Lemma InvalidVersion_wrapped data :
  errors_Is ErrInvalidVersion (fmt_Errorf "%w but got %s" [ErrInvalidVersion] [data]).
Proof. eapply Is_wrapped; [left; reflexivity|apply Is_here]. Qed.

(** X5: [Version.UnmarshalJSON] compares bytes: it accepts exactly the text
    that the encoder writes for [VersionValue] and sets the version to
    ["2.0"]; any other input, also another spelling of the same JSON
    string, leaves the version as it was and gives an error that wraps
    [ErrInvalidVersion] and names the input. *)
Theorem Version_UnmarshalJSON_exact (v : Version) (data : string) :
  (data = json.Marshal_string VersionValue ->
   Version_UnmarshalJSON v data = (VersionValue, None))
  /\ (data <> json.Marshal_string VersionValue ->
      exists err, Version_UnmarshalJSON v data = (v, Some err)
                  /\ err = fmt_Errorf "%w but got %s" [ErrInvalidVersion] [data]
                  /\ errors_Is ErrInvalidVersion err).
Proof.
  change (json.Marshal_string VersionValue) with (quoted "2.0").
  unfold Version_UnmarshalJSON.
  destruct (String.eqb_spec data (quoted "2.0")) as [Heq | Hne]; simpl.
  - split; [reflexivity|]. intros H. contradiction.
  - split; [intros H; contradiction|]. intros _.
    eexists. split; [reflexivity|]. split; [reflexivity|apply InvalidVersion_wrapped].
Qed.

Lemma Version_UnmarshalJSON_exact_witness :
  Version_UnmarshalJSON "" (quoted "2.0") = (VersionValue, None)
  /\ exists err,
       Version_UnmarshalJSON "" (quoted (String backslash "u0032.0")) = ("", Some err)
       /\ err = fmt_Errorf "%w but got %s" [ErrInvalidVersion]
                  [quoted (String backslash "u0032.0")]
       /\ errors_Is ErrInvalidVersion err.
Proof.
  split.
  - apply (proj1 (Version_UnmarshalJSON_exact "" (quoted "2.0"))). reflexivity.
  - apply (proj2 (Version_UnmarshalJSON_exact "" (quoted (String backslash "u0032.0")))).
    discriminate.
Defined.

(** The rejected spelling above denotes the same JSON string. *)
Example version_other_spelling :
  json.Unmarshal_string (quoted (String backslash "u0032.0")) = Some (Some "2.0").
Proof. reflexivity. Qed.

(** ** Error codes as text *)

Lemma string_length_append (a b : string) :
  String.length (a ++ b) = (String.length a + String.length b)%nat.
Proof.
  induction a as [|x a IH]; [reflexivity|].
  change (S (String.length (a ++ b)) = S (String.length a + String.length b)).
  now rewrite IH.
Qed.

Lemma string_append_inj_r (c : string) : forall a b : string,
  (a ++ c)%string = (b ++ c)%string -> a = b.
Proof.
  induction a as [|x a IH]; intros [|y b] H.
  - reflexivity.
  - apply (f_equal String.length) in H.
    change (("" ++ c)%string) with c in H.
    change ((String y b ++ c)%string) with (String y (b ++ c)) in H.
    simpl in H. rewrite string_length_append in H. lia.
  - apply (f_equal String.length) in H.
    change (("" ++ c)%string) with c in H.
    change ((String x a ++ c)%string) with (String x (a ++ c)) in H.
    simpl in H. rewrite string_length_append in H. lia.
  - change (String x (a ++ c) = String y (b ++ c))%string in H.
    injection H as -> H. f_equal. apply IH, H.
Qed.

Lemma FormatInt_injective a b :
  int64_range a -> int64_range b -> strconv.FormatInt a = strconv.FormatInt b -> a = b.
Proof.
  intros Ha Hb H. apply (f_equal strconv.ParseInt) in H.
  rewrite !ParseInt_FormatInt in H by assumption. now injection H.
Qed.

Lemma ErrorCode_String_cases c :
  (c = ParseErrorCode /\ ErrorCode_String c = "Parse error (-32700)")
  \/ (c = InvalidRequestCode /\ ErrorCode_String c = "Invalid Request (-32600)")
  \/ (c = MethodNotFoundCode /\ ErrorCode_String c = "Method not found (-32601)")
  \/ (c = InvalidParamsCode /\ ErrorCode_String c = "Invalid params (-32602)")
  \/ (c = InternalErrorCode /\ ErrorCode_String c = "Internal error (-32603)")
  \/ (~ named_code c
      /\ ErrorCode_String c = String "E" ("rror (" ++ strconv.FormatInt c ++ ")")).
Proof.
  unfold ErrorCode_String, named_code.
  destruct (Z.eqb_spec c ParseErrorCode) as [->|H1]; [left; split; reflexivity|].
  destruct (Z.eqb_spec c InvalidRequestCode) as [->|H2]; [right; left; split; reflexivity|].
  destruct (Z.eqb_spec c MethodNotFoundCode) as [->|H3];
    [right; right; left; split; reflexivity|].
  destruct (Z.eqb_spec c InvalidParamsCode) as [->|H4];
    [right; right; right; left; split; reflexivity|].
  destruct (Z.eqb_spec c InternalErrorCode) as [->|H5];
    [right; right; right; right; left; split; reflexivity|].
  right; right; right; right; right. split; [tauto|].
  destruct (Z.leb_spec (-32000) c); destruct (Z.leb_spec c (-32099)); simpl;
    try reflexivity; lia.
Qed.

(** X6: [ErrorCode.String] tells codes apart: two different 64-bit codes
    are never rendered as the same text. *)
Theorem ErrorCode_String_injective (c1 c2 : ErrorCode) :
  int64_range c1 -> int64_range c2 ->
  ErrorCode_String c1 = ErrorCode_String c2 -> c1 = c2.
Proof.
  intros Hr1 Hr2 H.
  destruct (ErrorCode_String_cases c1)
    as [[-> E1]|[[-> E1]|[[-> E1]|[[-> E1]|[[-> E1]|[N1 E1]]]]]];
  destruct (ErrorCode_String_cases c2)
    as [[-> E2]|[[-> E2]|[[-> E2]|[[-> E2]|[[-> E2]|[N2 E2]]]]]];
  try reflexivity; rewrite E1, E2 in H; try discriminate H.
  injection H as H.
  change (strconv.FormatInt c1 ++ ")" = strconv.FormatInt c2 ++ ")")%string in H.
  apply string_append_inj_r in H. apply FormatInt_injective; assumption.
Qed.

Lemma ErrorCode_String_injective_witness : (-32000 : ErrorCode) = -32000.
Proof.
  apply (ErrorCode_String_injective (-32000) (-32000)).
  - unfold int64_range, minInt64, maxInt64. lia.
  - unfold int64_range, minInt64, maxInt64. lia.
  - reflexivity.
Defined.

(** ** The order of Go strings *)

Lemma ascii_compare_refl a : Ascii.compare a a = Eq.
Proof. unfold Ascii.compare. apply N.compare_refl. Qed.

Lemma string_compare_refl a : String.compare a a = Eq.
Proof.
  induction a as [|x a IH]; [reflexivity|]. simpl. now rewrite ascii_compare_refl.
Qed.

Lemma string_compare_lt_trans a : forall b c,
  String.compare a b = Lt -> String.compare b c = Lt -> String.compare a c = Lt.
Proof.
  induction a as [|x a IH]; intros [|y b] [|z c]; simpl; try easy.
  destruct (Ascii.compare x y) eqn:Hxy; try easy;
    destruct (Ascii.compare y z) eqn:Hyz; try easy.
  - apply Ascii.compare_eq_iff in Hxy, Hyz. subst. rewrite ascii_compare_refl. apply IH.
  - apply Ascii.compare_eq_iff in Hxy. subst. now rewrite Hyz.
  - apply Ascii.compare_eq_iff in Hyz. subst. now rewrite Hxy.
  - unfold Ascii.compare in *. rewrite N.compare_lt_iff in *.
    intros _ _. destruct (N.compare_spec (N_of_ascii x) (N_of_ascii z)); [lia|reflexivity|lia].
Qed.

Lemma string_lt_irrefl a : ~ string_lt a a.
Proof. unfold string_lt, String.ltb. now rewrite string_compare_refl. Qed.

Lemma string_lt_trans a b c : string_lt a b -> string_lt b c -> string_lt a c.
Proof.
  unfold string_lt, String.ltb. intros Hab Hbc.
  destruct (String.compare a b) eqn:H1; try discriminate.
  destruct (String.compare b c) eqn:H2; try discriminate.
  now rewrite (string_compare_lt_trans a b c H1 H2).
Qed.

Lemma string_lt_total a b : string_lt a b \/ a = b \/ string_lt b a.
Proof.
  unfold string_lt, String.ltb. rewrite (String.compare_antisym b a).
  destruct (String.compare a b) eqn:H; simpl.
  - right. left. now apply String.compare_eq_iff.
  - left. reflexivity.
  - right. right. reflexivity.
Qed.

Lemma string_ge_true a b : string_ge a b = true <-> ~ string_lt a b.
Proof.
  unfold string_ge, string_lt. destruct (String.ltb a b); simpl; split; try easy.
  all: try (intros H; now contradiction H).
Qed.

Lemma string_ge_false a b : string_ge a b = false <-> string_lt a b.
Proof. unfold string_ge, string_lt. destruct (String.ltb a b); simpl; split; easy. Qed.

(** ** Binary search *)

Lemma half_between i j : (i < j)%nat -> (i <= (i + j) / 2 < j)%nat.
Proof.
  intros H. pose proof (Nat.div_mod (i + j) 2 ltac:(lia)) as Hd.
  pose proof (Nat.mod_upper_bound (i + j) 2 ltac:(lia)). lia.
Qed.

Lemma search_loop_S fuel (f : nat -> bool) i j :
  search_loop (S fuel) f i j
  = if (i <? j)%nat then
      if negb (f ((i + j) / 2)%nat) then search_loop fuel f (S ((i + j) / 2)) j
      else search_loop fuel f i ((i + j) / 2)%nat
    else i.
Proof. reflexivity. Qed.

Lemma search_loop_first (f : nat -> bool) (n : nat) :
  (forall i j, (i <= j)%nat -> (j < n)%nat -> f i = true -> f j = true) ->
  forall fuel i j,
    (i <= j)%nat -> (j <= n)%nat -> (j - i <= fuel)%nat ->
    (forall k, (k < i)%nat -> f k = false) ->
    (forall k, (j <= k)%nat -> (k < n)%nat -> f k = true) ->
    (search_loop fuel f i j <= n)%nat
    /\ (forall k, (k < search_loop fuel f i j)%nat -> f k = false)
    /\ (forall k, (search_loop fuel f i j <= k)%nat -> (k < n)%nat -> f k = true).
Proof.
  intros Hmono. induction fuel as [|fuel IH]; intros i j Hij Hjn Hfuel Hlow Hhigh.
  - simpl. assert (i = j) as -> by lia. repeat split; [lia|exact Hlow|exact Hhigh].
  - rewrite search_loop_S. destruct (Nat.ltb_spec i j) as [Hlt|Hge].
    + pose proof (half_between i j Hlt) as Hh.
      destruct (f ((i + j) / 2)%nat) eqn:Hfh; cbn [negb].
      * apply IH; try lia; [exact Hlow|].
        intros k Hk Hkn. apply (Hmono ((i + j) / 2)%nat k); [lia|lia|exact Hfh].
      * apply IH; try lia; [|exact Hhigh].
        intros k Hk. destruct (f k) eqn:Hfk; [|reflexivity].
        rewrite (Hmono k ((i + j) / 2)%nat) in Hfh; [discriminate|lia|lia|exact Hfk].
    + assert (i = j) as -> by lia. repeat split; [lia|exact Hlow|exact Hhigh].
Qed.

Lemma sort_Search_first (f : nat -> bool) (n : nat) :
  (forall i j, (i <= j)%nat -> (j < n)%nat -> f i = true -> f j = true) ->
  (sort_Search n f <= n)%nat
  /\ (forall k, (k < sort_Search n f)%nat -> f k = false)
  /\ (forall k, (sort_Search n f <= k)%nat -> (k < n)%nat -> f k = true).
Proof.
  intros Hmono. unfold sort_Search.
  apply (search_loop_first f n Hmono); lia.
Qed.

(** ** The registry *)

Lemma StronglySorted_lookup {A} (R : A -> A -> Prop) (l : list A) :
  StronglySorted R l ->
  forall i j a b, (i < j)%nat -> l !! i = Some a -> l !! j = Some b -> R a b.
Proof.
  induction 1 as [|x l Hs IH Hall]; intros i j a b Hij Ha Hb; [destruct i; discriminate|].
  destruct j as [|j]; [lia|]. simpl in Hb. destruct i as [|i].
  - simpl in Ha. injection Ha as <-. rewrite Forall_forall in Hall.
    apply Hall. apply list_elem_of_lookup. eauto.
  - simpl in Ha. apply (IH i j); [lia|assumption|assumption].
Qed.

Lemma name_at_lookup s i h :
  Server.handlers s !! i = Some h -> Server.name_at s i = Server.name h.
Proof. intros H. unfold Server.name_at. now rewrite H. Qed.

Lemma registry_names_lookup s i :
  registry_names s !! i = Server.name <$> (Server.handlers s !! i).
Proof. unfold registry_names. apply list_lookup_fmap. Qed.

Lemma registry_search_monotone s target :
  sorted_registry s ->
  forall i j, (i <= j)%nat -> (j < length (Server.handlers s))%nat ->
    string_ge (Server.name_at s i) target = true ->
    string_ge (Server.name_at s j) target = true.
Proof.
  intros Hsorted i j Hij Hj Hi.
  destruct (Nat.eq_dec i j) as [->|Hne]; [exact Hi|].
  destruct (lookup_lt_is_Some_2 (Server.handlers s) i ltac:(lia)) as [hi Hhi].
  destruct (lookup_lt_is_Some_2 (Server.handlers s) j Hj) as [hj Hhj].
  rewrite (name_at_lookup s i hi Hhi) in Hi. rewrite (name_at_lookup s j hj Hhj).
  apply string_ge_true. apply string_ge_true in Hi. intros Hlt. apply Hi.
  apply (string_lt_trans _ (Server.name hj)); [|exact Hlt].
  apply (StronglySorted_lookup string_lt (registry_names s) Hsorted i j); [lia| |];
    rewrite registry_names_lookup; [now rewrite Hhi|now rewrite Hhj].
Qed.

(** In a sorted registry the search finds the index of a registered
    name. *)
Lemma registry_search_found s k h :
  sorted_registry s ->
  Server.handlers s !! k = Some h ->
  sort_Search (length (Server.handlers s))
    (fun i => string_ge (Server.name_at s i) (Server.name h)) = k.
Proof.
  intros Hsorted Hk.
  destruct (sort_Search_first _ _ (registry_search_monotone s (Server.name h) Hsorted))
    as (Hle & Hlow & Hhigh).
  set (idx := sort_Search _ _) in *.
  pose proof (lookup_lt_Some _ _ _ Hk) as Hklt.
  destruct (Nat.lt_trichotomy idx k) as [Hlt | [Heq | Hgt]]; [|exact Heq|].
  - specialize (Hhigh idx (Nat.le_refl _) ltac:(lia)).
    destruct (lookup_lt_is_Some_2 (Server.handlers s) idx ltac:(lia)) as [hi Hhi].
    rewrite (name_at_lookup s idx hi Hhi) in Hhigh. apply string_ge_true in Hhigh.
    contradiction Hhigh.
    apply (StronglySorted_lookup string_lt (registry_names s) Hsorted idx k); [lia| |];
      rewrite registry_names_lookup; [now rewrite Hhi|now rewrite Hk].
  - specialize (Hlow k Hgt). rewrite (name_at_lookup s k h Hk) in Hlow.
    apply string_ge_false in Hlow. now apply string_lt_irrefl in Hlow.
Qed.

Lemma dispatch_registered s k h (r : RawRequest) :
  sorted_registry s ->
  Server.handlers s !! k = Some h ->
  Server.name h = Method r ->
  Server.ServeJSONRPC2 s r = Server.handler h r.
Proof.
  intros Hsorted Hk Hname. unfold Server.ServeJSONRPC2.
  rewrite <- Hname, (registry_search_found s k h Hsorted Hk), Hk.
  now rewrite String.eqb_refl.
Qed.

(** X7: in a sorted registry, a request whose method is registered is
    served by the handler registered under that name. *)
Theorem ServeJSONRPC2_dispatches (s : Server.t) (k : nat) (h : Server.handlerInfo)
    (r : RawRequest) :
  sorted_registry s ->
  Server.handlers s !! k = Some h ->
  Server.name h = Method r ->
  Server.ServeJSONRPC2 s r = Server.handler h r.
Proof.
  intros Hsorted Hk Hname. unfold Server.ServeJSONRPC2.
  pose proof (registry_search_found s k h Hsorted Hk) as Hidx.
  rewrite Hname in Hidx. rewrite Hidx, Hk.
  destruct (String.eqb_spec (Server.name h) (Method r)) as [_|Hne]; [reflexivity|].
  contradiction.
Qed.

Lemma dispatch_unregistered s (r : RawRequest) :
  Method r ∉ registry_names s ->
  Server.ServeJSONRPC2 s r = (nil_any, Some (TypedError ErrMethodNotFound)).
Proof.
  intros Hnot. unfold Server.ServeJSONRPC2.
  destruct (Server.handlers s !! _) as [h|] eqn:Hh; [|reflexivity].
  destruct (String.eqb_spec (Server.name h) (Method r)) as [Heq|Hne]; [|reflexivity].
  contradiction Hnot. rewrite <- Heq. unfold registry_names.
  apply list_elem_of_fmap_2. apply list_elem_of_lookup. eauto.
Qed.

(** X8: a request whose method is not in the registry is answered with
    [ErrMethodNotFound] and no result, whatever the order of the
    registry; so is every request on a new server. *)
Theorem ServeJSONRPC2_method_not_found (s : Server.t) (r : RawRequest) :
  Method r ∉ registry_names s ->
  Server.ServeJSONRPC2 s r = (nil_any, Some (TypedError ErrMethodNotFound)).
Proof.
  intros Hnot. unfold Server.ServeJSONRPC2.
  destruct (Server.handlers s !! _) as [h|] eqn:Hh; [|reflexivity].
  destruct (String.eqb_spec (Server.name h) (Method r)) as [Heq|Hne]; [|reflexivity].
  exfalso. apply Hnot. apply list_elem_of_fmap. exists h.
  split; [now symmetry|]. apply list_elem_of_lookup. eexists. exact Hh.
Qed.

Lemma ServeJSONRPC2_method_not_found_witness :
  Server.ServeJSONRPC2 (Server.NewServer []) (NewRequest None "anything" "null")
  = (nil_any, Some (TypedError ErrMethodNotFound)).
Proof.
  apply (ServeJSONRPC2_method_not_found (Server.NewServer []) (NewRequest None "anything" "null")).
  apply not_elem_of_nil.
Defined.

Lemma ServeJSONRPC2_dispatches_witness :
  Server.ServeJSONRPC2 sample_server (NewRequest None "ping" "null") = (any_value "1", None).
Proof.
  apply (ServeJSONRPC2_dispatches sample_server 1
           {| Server.name := "ping"; Server.handler := fun _ => (any_value "1", None) |}
           (NewRequest None "ping" "null")).
  - repeat constructor.
  - reflexivity.
  - reflexivity.
Defined.

Lemma sorted_names_unique s i j a b :
  sorted_registry s ->
  Server.handlers s !! i = Some a -> Server.handlers s !! j = Some b ->
  Server.name a = Server.name b -> i = j.
Proof.
  intros Hsorted Ha Hb Hname.
  assert (forall i j a b, (i < j)%nat -> Server.handlers s !! i = Some a ->
            Server.handlers s !! j = Some b -> Server.name a <> Server.name b) as Hlt.
  { intros i' j' a' b' Hij Ha' Hb' Heq.
    apply (string_lt_irrefl (Server.name a')). rewrite Heq at 2.
    apply (StronglySorted_lookup string_lt (registry_names s) Hsorted i' j'); [lia| |];
      rewrite registry_names_lookup; [now rewrite Ha'|now rewrite Hb']. }
  destruct (Nat.lt_trichotomy i j) as [H | [H | H]]; [|exact H|].
  - now destruct (Hlt i j a b H Ha Hb).
  - now destruct (Hlt j i b a H Hb Ha).
Qed.

(** What [On] does to the list of handlers. *)
Lemma On_handlers s nm m :
  sorted_registry s ->
  exists idx,
    (exists h, Server.handlers s !! idx = Some h /\ Server.name h = nm
               /\ Server.handlers (Server.On s nm m)
                  = (<[idx := {| Server.name := nm; Server.handler := m |}]> (Server.handlers s)))
    \/ ((nm ∉ registry_names s)
        /\ (idx <= length (Server.handlers s))%nat
        /\ Server.handlers (Server.On s nm m)
           = (take idx (Server.handlers s)
              ++ {| Server.name := nm; Server.handler := m |} :: drop idx (Server.handlers s))%list
        /\ (forall a, a ∈ take idx (registry_names s) -> string_lt a nm)
        /\ (forall b, b ∈ drop idx (registry_names s) -> string_lt nm b)).
Proof.
  intros Hsorted.
  destruct (sort_Search_first _ _ (registry_search_monotone s nm Hsorted))
    as (Hle & Hlow & Hhigh).
  set (idx := sort_Search (length (Server.handlers s))
                (fun i => string_ge (Server.name_at s i) nm)) in *.
  exists idx.
  assert (Server.handlers (Server.On s nm m)
          = match Server.handlers s !! idx with
            | Some h =>
                if String.eqb (Server.name h) nm
                then <[idx := {| Server.name := nm; Server.handler := m |}]> (Server.handlers s)
                else (take idx (Server.handlers s)
                      ++ {| Server.name := nm; Server.handler := m |}
                         :: drop idx (Server.handlers s))%list
            | None => (take idx (Server.handlers s)
                       ++ {| Server.name := nm; Server.handler := m |}
                          :: drop idx (Server.handlers s))%list
            end) as Hon by reflexivity.
  assert ((exists h, Server.handlers s !! idx = Some h /\ Server.name h = nm)
          \/ ((nm ∉ registry_names s)
              /\ Server.handlers (Server.On s nm m)
                 = (take idx (Server.handlers s)
                    ++ {| Server.name := nm; Server.handler := m |}
                       :: drop idx (Server.handlers s))%list)) as [Hfound | [Hnot Heq]].
  { destruct (Server.handlers s !! idx) as [h|] eqn:Hidx.
    - destruct (String.eqb_spec (Server.name h) nm) as [Hn|Hn]; [left; eauto|].
      right. split; [|exact Hon]. intros Hin.
      apply list_elem_of_fmap in Hin as (h' & -> & Hin').
      apply list_elem_of_lookup in Hin' as [k Hk].
      pose proof (registry_search_found s k h' Hsorted Hk) as Hfound.
      fold idx in Hfound. subst k. rewrite Hidx in Hk. injection Hk as ->. now apply Hn.
    - right. split; [|exact Hon]. intros Hin.
      apply list_elem_of_fmap in Hin as (h' & -> & Hin').
      apply list_elem_of_lookup in Hin' as [k Hk].
      pose proof (registry_search_found s k h' Hsorted Hk) as Hfound.
      fold idx in Hfound. subst k. rewrite Hidx in Hk. discriminate Hk. }
  - left. destruct Hfound as (h & Hidx & Hn). exists h. repeat split; try assumption.
    rewrite Hon, Hidx. now rewrite (proj2 (String.eqb_eq _ _) Hn).
  - right. repeat split; try assumption.
    + intros a Ha. apply list_elem_of_lookup in Ha as [i Hi].
      pose proof (lookup_lt_Some _ _ _ Hi) as Hilen. rewrite length_take in Hilen.
      rewrite lookup_take_lt in Hi by lia.
      rewrite registry_names_lookup in Hi.
      destruct (Server.handlers s !! i) as [h|] eqn:Hh; [|discriminate Hi].
      injection Hi as <-. apply string_ge_false.
      rewrite <- (name_at_lookup s i h Hh). apply Hlow. lia.
    + intros b Hb. apply list_elem_of_lookup in Hb as [i Hi].
      rewrite lookup_drop, registry_names_lookup in Hi.
      destruct (Server.handlers s !! (idx + i)%nat) as [h|] eqn:Hh; [|discriminate Hi].
      injection Hi as <-.
      pose proof (lookup_lt_Some _ _ _ Hh) as Hlen.
      specialize (Hhigh (idx + i)%nat ltac:(lia) Hlen).
      rewrite (name_at_lookup s _ h Hh) in Hhigh. apply string_ge_true in Hhigh.
      destruct (string_lt_total (Server.name h) nm) as [Hlt | [Heqn | Hgt]];
        [contradiction|exfalso|exact Hgt].
      apply Hnot. rewrite <- Heqn. apply list_elem_of_fmap_2.
      apply list_elem_of_lookup. eauto.
Qed.

Lemma On_names s nm m :
  sorted_registry s ->
  (nm ∈ registry_names s /\ registry_names (Server.On s nm m) = registry_names s)
  \/ ((nm ∉ registry_names s)
      /\ exists idx,
           registry_names (Server.On s nm m)
           = (take idx (registry_names s) ++ nm :: drop idx (registry_names s))%list
           /\ (forall a, a ∈ take idx (registry_names s) -> string_lt a nm)
           /\ (forall b, b ∈ drop idx (registry_names s) -> string_lt nm b)).
Proof.
  intros Hsorted.
  destruct (On_handlers s nm m Hsorted)
    as (idx & [(h & Hidx & Hn & Heq) | (Hnot & Hlen & Heq & Hbefore & Hafter)]).
  - left. split.
    + rewrite <- Hn. apply list_elem_of_fmap_2. apply list_elem_of_lookup. eauto.
    + unfold registry_names. rewrite Heq, list_fmap_insert. simpl.
      apply list_insert_id. rewrite list_lookup_fmap, Hidx. simpl. now rewrite Hn.
  - right. split; [exact Hnot|]. exists idx. split; [|split; assumption].
    unfold registry_names. rewrite Heq, fmap_app, fmap_cons, fmap_take, fmap_drop.
    reflexivity.
Qed.

Lemma On_sorted s nm m : sorted_registry s -> sorted_registry (Server.On s nm m).
Proof.
  intros Hsorted.
  destruct (On_names s nm m Hsorted) as [[_ Heq] | (_ & idx & Heq & Hbefore & Hafter)];
    unfold sorted_registry; rewrite Heq; [exact Hsorted|].
  unfold sorted_registry in Hsorted.
  rewrite <- (take_drop idx (registry_names s)) in Hsorted.
  apply StronglySorted_app in Hsorted as (Hcross & Htake & Hdrop).
  apply StronglySorted_app. split; [|split; [exact Htake|]].
  - intros x1 x2 H1 H2. apply elem_of_cons in H2 as [-> | H2]; [now apply Hbefore|].
    now apply Hcross.
  - constructor; [exact Hdrop|]. apply Forall_forall. exact Hafter.
Qed.

Lemma server_with_sorted regs : sorted_registry (server_with regs).
Proof.
  unfold server_with.
  assert (forall s0, sorted_registry s0 ->
            sorted_registry (fold_left (fun s p => Server.On s (fst p) (snd p)) regs s0)) as Hall.
  { induction regs as [|p regs IH]; intros s0 H0; [exact H0|]. simpl. apply IH, On_sorted, H0. }
  apply Hall. constructor.
Qed.

(** X9: [On] keeps the registry sorted by name, without repeated names,
    and leaves the bound on concurrent calls alone; so every server built
    by [NewServer()] and calls of [On] has a sorted registry. *)
Theorem On_keeps_registry_sorted (s : Server.t) (nm : string) (m : Handler)
    (regs : list (string * Handler)) :
  sorted_registry s ->
  sorted_registry (Server.On s nm m)
  /\ Server.maxConcurrentCalls (Server.On s nm m) = Server.maxConcurrentCalls s
  /\ sorted_registry (server_with regs).
Proof.
  intros Hsorted. split; [now apply On_sorted|]. split; [reflexivity|].
  apply server_with_sorted.
Qed.

Lemma On_keeps_registry_sorted_witness :
  sorted_registry (Server.On (Server.NewServer []) "ping" wrapping_handler)
  /\ Server.maxConcurrentCalls (Server.On (Server.NewServer []) "ping" wrapping_handler)
     = Server.maxConcurrentCalls (Server.NewServer [])
  /\ sorted_registry (server_with [("b", wrapping_handler); ("a", wrapping_handler)]).
Proof.
  apply (On_keeps_registry_sorted (Server.NewServer []) "ping" wrapping_handler
           [("b", wrapping_handler); ("a", wrapping_handler)]).
  constructor.
Defined.

Lemma On_handlers_elem s nm m h :
  sorted_registry s ->
  h ∈ Server.handlers (Server.On s nm m)
  <-> h = {| Server.name := nm; Server.handler := m |}
      \/ (h ∈ Server.handlers s /\ Server.name h <> nm).
Proof.
  intros Hsorted.
  destruct (On_handlers s nm m Hsorted)
    as (idx & [(h0 & Hidx & Hn & Heq) | (Hnot & Hlen & Heq & _ & _)]); rewrite Heq.
  - pose proof (lookup_lt_Some _ _ _ Hidx) as Hlt. split.
    + intros Hin. apply list_elem_of_lookup in Hin as [k Hk].
      destruct (Nat.eq_dec k idx) as [->|Hne].
      * rewrite list_lookup_insert_eq in Hk by exact Hlt. left. now injection Hk.
      * rewrite list_lookup_insert_ne in Hk by congruence. right. split.
        -- apply list_elem_of_lookup. eauto.
        -- intros Hname. apply Hne.
           apply (sorted_names_unique s k idx h h0 Hsorted Hk Hidx). congruence.
    + intros [-> | [Hin Hname]]; apply list_elem_of_lookup.
      * exists idx. now apply list_lookup_insert_eq.
      * apply list_elem_of_lookup in Hin as [k Hk]. exists k.
        rewrite list_lookup_insert_ne; [exact Hk|]. intros ->.
        rewrite Hidx in Hk. injection Hk as ->. now apply Hname.
  - assert (forall x, x ∈ Server.handlers s -> Server.name x <> nm) as Hnames.
    { intros x Hx Hname. apply Hnot. rewrite <- Hname. now apply list_elem_of_fmap_2. }
    rewrite elem_of_app, elem_of_cons.
    rewrite <- (take_drop idx (Server.handlers s)) at 3.
    rewrite elem_of_app. split.
    + intros [Hin | [-> | Hin]]; [right|left; reflexivity|right].
      * split; [now left|]. apply Hnames.
        rewrite <- (take_drop idx (Server.handlers s)), elem_of_app. now left.
      * split; [now right|]. apply Hnames.
        rewrite <- (take_drop idx (Server.handlers s)), elem_of_app. now right.
    + intros [-> | [[Hin | Hin] _]]; [right; left; reflexivity|now left|now right; right].
Qed.

Lemma On_then_serve s m (r : RawRequest) :
  sorted_registry s -> Server.ServeJSONRPC2 (Server.On s (Method r) m) r = m r.
Proof.
  intros Hsorted.
  assert ({| Server.name := Method r; Server.handler := m |}
          ∈ Server.handlers (Server.On s (Method r) m)) as Hin.
  { apply On_handlers_elem; [exact Hsorted|]. now left. }
  apply list_elem_of_lookup in Hin as [k Hk].
  apply (dispatch_registered _ k {| Server.name := Method r; Server.handler := m |} r);
    [|exact Hk|reflexivity].
  apply On_sorted, Hsorted.
Qed.

(** X10: after [On(name, m)] on a sorted registry, a request for [name] is
    served by [m], also when [name] had another handler before. *)
Theorem On_then_dispatch (s : Server.t) (m : Handler) (r : RawRequest) :
  sorted_registry s ->
  Server.ServeJSONRPC2 (Server.On s (Method r) m) r = m r.
Proof.
  intros Hsorted.
  pose proof (On_sorted s (Method r) m Hsorted) as Hsorted'.
  pose proof (proj2 (On_handlers_elem s (Method r) m
                       {| Server.name := Method r; Server.handler := m |} Hsorted)
                (or_introl eq_refl)) as Hin.
  apply list_elem_of_lookup in Hin as [k Hk].
  now rewrite (dispatch_registered _ k _ r Hsorted' Hk eq_refl).
Qed.

Lemma On_then_dispatch_witness :
  Server.ServeJSONRPC2
    (Server.On sample_server "ping" wrapping_handler) (NewRequest None "ping" "null")
  = wrapping_handler (NewRequest None "ping" "null").
Proof.
  apply (On_then_dispatch sample_server wrapping_handler (NewRequest None "ping" "null")).
  repeat constructor.
Defined.

(** X11: [On(name, m)] changes the answer for [name] only: a request for
    any other method is served as before. *)
Theorem On_other_methods_unchanged (s : Server.t) (nm : string) (m : Handler)
    (r : RawRequest) :
  sorted_registry s ->
  Method r <> nm ->
  Server.ServeJSONRPC2 (Server.On s nm m) r = Server.ServeJSONRPC2 s r.
Proof.
  intros Hsorted Hne.
  pose proof (On_sorted s nm m Hsorted) as Hsorted'.
  destruct (decide (Method r ∈ registry_names s)) as [Hin | Hnot].
  - apply list_elem_of_fmap in Hin as (h & Hname & Hin).
    assert (h ∈ Server.handlers (Server.On s nm m)) as Hin'.
    { apply On_handlers_elem; [exact Hsorted|]. right. split; [exact Hin|congruence]. }
    apply list_elem_of_lookup in Hin as [k Hk].
    apply list_elem_of_lookup in Hin' as [k' Hk'].
    rewrite (dispatch_registered _ k' h r Hsorted' Hk' (eq_sym Hname)).
    rewrite (dispatch_registered _ k h r Hsorted Hk (eq_sym Hname)). reflexivity.
  - rewrite (dispatch_unregistered s r Hnot).
    apply dispatch_unregistered. intros Hin.
    apply list_elem_of_fmap in Hin as (h & Hname & Hin).
    apply (On_handlers_elem s nm m h Hsorted) in Hin as [-> | [Hin _]].
    + now apply Hne.
    + apply Hnot. rewrite Hname. now apply list_elem_of_fmap_2.
Qed.

Lemma On_other_methods_unchanged_witness :
  Server.ServeJSONRPC2
    (Server.On sample_server "zeta" wrapping_handler) (NewRequest None "ping" "null")
  = Server.ServeJSONRPC2 sample_server (NewRequest None "ping" "null").
Proof.
  apply (On_other_methods_unchanged sample_server "zeta" wrapping_handler
           (NewRequest None "ping" "null")).
  - repeat constructor.
  - discriminate.
Defined.

(** X12: registering a name that is already in a sorted registry replaces
    its handler and leaves the names as they are, so a second [On] for the
    same name never adds an entry; registering a new name adds exactly
    one. *)
Theorem On_replaces_or_adds (s : Server.t) (nm : string) (h1 h2 : Handler) :
  sorted_registry s ->
  registry_names (Server.On (Server.On s nm h1) nm h2) = registry_names (Server.On s nm h1)
  /\ (nm ∈ registry_names s -> registry_names (Server.On s nm h1) = registry_names s)
  /\ (nm ∉ registry_names s ->
      length (Server.handlers (Server.On s nm h1)) = S (length (Server.handlers s))).
Proof.
  intros Hsorted.
  pose proof (On_sorted s nm h1 Hsorted) as Hsorted'.
  split; [|split].
  - destruct (On_names (Server.On s nm h1) nm h2 Hsorted') as [[_ Heq] | [Hnot _]];
      [exact Heq|].
    contradiction Hnot.
    change nm with (Server.name {| Server.name := nm; Server.handler := h1 |}).
    apply list_elem_of_fmap_2. apply On_handlers_elem; [exact Hsorted|]. now left.
  - intros Hin. destruct (On_names s nm h1 Hsorted) as [[_ Heq] | [Hnot _]];
      [exact Heq|contradiction].
  - intros Hnot.
    destruct (On_handlers s nm h1 Hsorted)
      as (idx & [(h0 & Hidx & Hn & _) | (_ & Hlen & Heq & _ & _)]).
    + contradiction Hnot. rewrite <- Hn. apply list_elem_of_fmap_2.
      apply list_elem_of_lookup. eauto.
    + rewrite Heq, length_app, length_take. simpl. rewrite length_drop. lia.
Qed.

Lemma On_replaces_or_adds_witness :
  registry_names (Server.On (Server.On (Server.NewServer []) "ping" wrapping_handler)
                    "ping" wrapping_handler)
  = registry_names (Server.On (Server.NewServer []) "ping" wrapping_handler)
  /\ ("ping" ∈ registry_names (Server.NewServer []) ->
      registry_names (Server.On (Server.NewServer []) "ping" wrapping_handler)
      = registry_names (Server.NewServer []))
  /\ ("ping" ∉ registry_names (Server.NewServer []) ->
      length (Server.handlers (Server.On (Server.NewServer []) "ping" wrapping_handler))
      = S (length (Server.handlers (Server.NewServer [])))).
Proof.
  apply (On_replaces_or_adds (Server.NewServer []) "ping" wrapping_handler wrapping_handler).
  constructor.
Defined.

(** ** Responses of the server *)

(** X13: [call] answers exactly the requests that carry an identifier;
    the response repeats the identifier, has the version ["2.0"], and
    holds either a result or an error, never both and never neither. *)
Theorem call_response_well_formed (s : Server.t) (r : RawRequest) (id : ID.t) :
  req_ID r = Some id ->
  exists resp,
    Server.call s r = Some resp
    /\ resp_Jsonrpc resp = "2.0"
    /\ resp_ID resp = Some id
    /\ ((exists v, Result resp = Some v /\ resp_Error resp = None)
        \/ (Result resp = None /\ exists e, resp_Error resp = Some e)).
Proof.
  intros Hid. destruct (Server.ServeJSONRPC2 s r) as [result err] eqn:Hserve.
  eexists. split; [apply (call_with_ID s r id result err Hid Hserve)|].
  simpl. repeat split. destruct err as [e|]; [right|left]; eauto.
Qed.

Lemma call_response_well_formed_witness :
  exists resp,
    Server.call sample_server (NewRequest (Some (ID.StringID "b")) "fail" "null") = Some resp
    /\ resp_Jsonrpc resp = "2.0"
    /\ resp_ID resp = Some (ID.StringID "b")
    /\ ((exists v, Result resp = Some v /\ resp_Error resp = None)
        \/ (Result resp = None /\ exists e, resp_Error resp = Some e)).
Proof.
  apply (call_response_well_formed sample_server
           (NewRequest (Some (ID.StringID "b")) "fail" "null") (ID.StringID "b")).
  reflexivity.
Defined.

(** X14: a handler made by [Call] or [Notify] whose parameters do not
    decode is never run: the request is answered with the error
    [ErrInvalidParams] (code -32602) and no result. *)
Theorem undecodable_params_answered (s : Server.t) (I O : Type)
    (Unmarshal_I : RawMessage -> option I) (to_any : O -> any)
    (f : I -> O * option error) (g : I -> option error) (r : RawRequest) (id : ID.t) :
  sorted_registry s ->
  req_ID r = Some id ->
  Unmarshal_I (Params r) = None ->
  Server.call (Server.On s (Method r) (Call I O Unmarshal_I to_any f)) r
  = Some {| resp_Jsonrpc := VersionValue; Result := None;
            resp_Error := Some ErrInvalidParams; resp_ID := Some id |}
  /\ Server.call (Server.On s (Method r) (Notify I Unmarshal_I g)) r
     = Some {| resp_Jsonrpc := VersionValue; Result := None;
               resp_Error := Some ErrInvalidParams; resp_ID := Some id |}.
Proof.
  intros Hsorted Hid Hparams. split.
  - rewrite (call_with_ID _ r id nil_any (Some (TypedError ErrInvalidParams)) Hid);
      [reflexivity|].
    rewrite On_then_serve by exact Hsorted. unfold Call. now rewrite Hparams.
  - rewrite (call_with_ID _ r id nil_any (Some (TypedError ErrInvalidParams)) Hid);
      [reflexivity|].
    rewrite On_then_serve by exact Hsorted. unfold Notify. now rewrite Hparams.
Qed.

Lemma undecodable_params_answered_witness :
  Server.call
    (Server.On sample_server "sum"
       (Call nat nat (fun _ => None) (fun _ => nil_any) (fun n => (n, None))))
    (NewRequest (Some (ID.Int64ID 3)) "sum" "{")
  = Some {| resp_Jsonrpc := VersionValue; Result := None;
            resp_Error := Some ErrInvalidParams; resp_ID := Some (ID.Int64ID 3) |}
  /\ Server.call
       (Server.On sample_server "sum" (Notify nat (fun _ => None) (fun _ => None)))
       (NewRequest (Some (ID.Int64ID 3)) "sum" "{")
     = Some {| resp_Jsonrpc := VersionValue; Result := None;
               resp_Error := Some ErrInvalidParams; resp_ID := Some (ID.Int64ID 3) |}.
Proof.
  apply (undecodable_params_answered sample_server nat nat (fun _ => None)
           (fun _ => nil_any) (fun n => (n, None)) (fun _ => None)
           (NewRequest (Some (ID.Int64ID 3)) "sum" "{") (ID.Int64ID 3)).
  - repeat constructor.
  - reflexivity.
  - reflexivity.
Defined.

(** X15: when the parameters decode and the function succeeds, a [Call]
    handler answers a request that has an identifier with the function's
    result, and a [Notify] handler answers it with the result [null]. *)
Theorem decoded_params_answered (s : Server.t) (I O : Type)
    (Unmarshal_I : RawMessage -> option I) (to_any : O -> any)
    (f : I -> O * option error) (g : I -> option error) (r : RawRequest) (id : ID.t)
    (params : I) (o : O) :
  sorted_registry s ->
  req_ID r = Some id ->
  Unmarshal_I (Params r) = Some params ->
  f params = (o, None) ->
  g params = None ->
  Server.call (Server.On s (Method r) (Call I O Unmarshal_I to_any f)) r
  = Some {| resp_Jsonrpc := VersionValue; Result := Some (to_any o);
            resp_Error := None; resp_ID := Some id |}
  /\ Server.call (Server.On s (Method r) (Notify I Unmarshal_I g)) r
     = Some {| resp_Jsonrpc := VersionValue; Result := Some nil_any;
               resp_Error := None; resp_ID := Some id |}.
Proof.
  intros Hsorted Hid Hparams Hf Hg. split.
  - rewrite (call_with_ID _ r id (to_any o) None Hid); [reflexivity|].
    rewrite On_then_serve by exact Hsorted. unfold Call. now rewrite Hparams, Hf.
  - rewrite (call_with_ID _ r id nil_any None Hid); [reflexivity|].
    rewrite On_then_serve by exact Hsorted. unfold Notify. now rewrite Hparams, Hg.
Qed.

Lemma decoded_params_answered_witness :
  Server.call
    (Server.On sample_server "twice"
       (Call nat nat (fun _ => Some 21%nat) (fun _ => any_value "42")
          (fun n => ((2 * n)%nat, None))))
    (NewRequest (Some (ID.Int64ID 3)) "twice" "21")
  = Some {| resp_Jsonrpc := VersionValue; Result := Some (any_value "42");
            resp_Error := None; resp_ID := Some (ID.Int64ID 3) |}
  /\ Server.call
       (Server.On sample_server "twice" (Notify nat (fun _ => Some 21%nat) (fun _ => None)))
       (NewRequest (Some (ID.Int64ID 3)) "twice" "21")
     = Some {| resp_Jsonrpc := VersionValue; Result := Some nil_any;
               resp_Error := None; resp_ID := Some (ID.Int64ID 3) |}.
Proof.
  apply (decoded_params_answered sample_server nat nat (fun _ => Some 21%nat)
           (fun _ => any_value "42") (fun n => ((2 * n)%nat, None)) (fun _ => None)
           (NewRequest (Some (ID.Int64ID 3)) "twice" "21") (ID.Int64ID 3) 21%nat 42%nat).
  - repeat constructor.
  - reflexivity.
  - reflexivity.
  - reflexivity.
  - reflexivity.
Defined.

(** ** Serving a connection *)




(** X17: a batch that holds only notifications is answered with an array
    without entries, whatever the handlers return. *)
Theorem notifications_only_batch (s : Server.t) (rs : messageList.t RawRequest)
    (order : list nat) :
  messageList.IsBatch rs = true ->
  messageList.Messages rs <> [] ->
  Forall (fun r => req_ID r = None) (messageList.Messages rs) ->
  Server.arrival_order rs order ->
  Server.callAll s rs order = ([WriteArray []], Returns).
Proof.
  intros Hbatch Hne Hall Hord.
  destruct (callAll_batch s rs order Hbatch Hne Hord) as (results & -> & Hlen).
  assert (count_calls (messageList.Messages rs) = 0%nat) as Hzero.
  { unfold count_calls. clear -Hall.
    induction Hall as [|r l Hr _ IH]; [reflexivity|].
    rewrite filter_cons_False by (unfold has_ID; now rewrite Hr). exact IH. }
  rewrite Hzero in Hlen. destruct results; [reflexivity|discriminate Hlen].
Qed.

Lemma notifications_only_batch_witness :
  Server.callAll sample_server
    {| messageList.IsBatch := true;
       messageList.Messages := [NewRequest None "fail" "null"; NewRequest None "ping" "null"] |}
    [1; 0]%nat
  = ([WriteArray []], Returns).
Proof.
  apply (notifications_only_batch sample_server
           {| messageList.IsBatch := true;
              messageList.Messages :=
                [NewRequest None "fail" "null"; NewRequest None "ping" "null"] |}
           [1; 0]%nat).
  - reflexivity.
  - discriminate.
  - repeat constructor.
  - apply perm_swap.
Defined.

(** ** Decoding a message list *)

Lemma messageList_UnmarshalJSON_unfold T (U : string -> option T) l data :
  messageList.UnmarshalJSON T U l data
  = if is_array_text data then
      match messageList.Unmarshal_slice T U data with
      | Some ms => ({| messageList.IsBatch := true; messageList.Messages := ms |}, false)
      | None => ({| messageList.IsBatch := true;
                    messageList.Messages := messageList.Messages l |}, true)
      end
    else
      match U data with
      | Some m => ({| messageList.IsBatch := messageList.IsBatch l;
                      messageList.Messages := [m] |}, false)
      | None => (l, true)
      end.
Proof.
  destruct data as [|c rest]; [reflexivity|]. byte_cases c; reflexivity.
Qed.

(** X18: a message list decoded without error into a fresh variable is
    flagged as a batch exactly when the input begins with a bracket, and
    holds exactly one message otherwise; so [callAll] never indexes an
    empty list: on decoded input it does not panic. *)
Theorem decoded_list_is_safe (U : string -> option RawRequest) (data : string)
    (rs : messageList.t RawRequest) :
  messageList.UnmarshalJSON RawRequest U messageList.zero data = (rs, false) ->
  messageList.IsBatch rs = is_array_text data
  /\ (messageList.IsBatch rs = false -> exists m, messageList.Messages rs = [m])
  /\ forall s order, snd (Server.callAll s rs order) <> Panics.
Proof.
  rewrite messageList_UnmarshalJSON_unfold. intros H.
  destruct (is_array_text data).
  - destruct (messageList.Unmarshal_slice RawRequest U data) as [ms|]; [|discriminate H].
    injection H as <-. split; [reflexivity|]. split; [discriminate|].
    intros s order. unfold Server.callAll. simpl.
    destruct (Server.collect _ _ _ _); discriminate.
  - destruct (U data) as [m|]; [|discriminate H].
    injection H as <-. split; [reflexivity|]. split; [eauto|].
    intros s order. unfold Server.callAll. simpl.
    destruct (Server.call s m); discriminate.
Qed.

Lemma decoded_list_is_safe_witness :
  messageList.IsBatch
    {| messageList.IsBatch := false; messageList.Messages := [NewRequest None "ping" "x"] |}
  = is_array_text "x"
  /\ (messageList.IsBatch
        {| messageList.IsBatch := false; messageList.Messages := [NewRequest None "ping" "x"] |}
      = false ->
      exists m,
        messageList.Messages
          {| messageList.IsBatch := false;
             messageList.Messages := [NewRequest None "ping" "x"] |} = [m])
  /\ forall s order,
       snd (Server.callAll s
              {| messageList.IsBatch := false;
                 messageList.Messages := [NewRequest None "ping" "x"] |} order) <> Panics.
Proof.
  apply (decoded_list_is_safe (fun d => Some (NewRequest None "ping" d)) "x").
  reflexivity.
Defined.

(** ** The pending-call table of the client *)

Lemma wf_NewClient : Client.wf Client.NewClient.
Proof.
  split; simpl.
  - intros id ref H. rewrite lookup_empty in H. discriminate H.
  - intros id1 id2 ref H. rewrite lookup_empty in H. discriminate H.
Qed.

Lemma wf_ref_bound c id ref :
  Client.wf c -> Client.ch c !! id = Some ref -> (ref < length (Client.chans c))%nat.
Proof. intros [Hwf _] H. apply lookup_lt_Some with Client.fresh_chan. eauto. Qed.

Lemma wf_makeChan c : Client.wf c -> Client.wf (fst (Client.makeChan c)).
Proof.
  intros Hwf. pose proof Hwf as [Hopen Hinj]. split; simpl.
  - intros id ref H. destruct (decide (Client.nextID c = id)) as [<-|Hne].
    + rewrite lookup_insert_eq in H. injection H as <-.
      now rewrite list_lookup_middle.
    + rewrite lookup_insert_ne in H by exact Hne.
      rewrite lookup_app_l by (eapply wf_ref_bound; eassumption). eauto.
  - intros id1 id2 ref H1 H2.
    destruct (decide (Client.nextID c = id1)) as [E1|N1];
      destruct (decide (Client.nextID c = id2)) as [E2|N2]; [congruence| | |].
    + subst id1. rewrite lookup_insert_eq in H1. injection H1 as <-.
      rewrite lookup_insert_ne in H2 by exact N2.
      pose proof (wf_ref_bound c id2 _ Hwf H2). lia.
    + subst id2. rewrite lookup_insert_eq in H2. injection H2 as <-.
      rewrite lookup_insert_ne in H1 by exact N1.
      pose proof (wf_ref_bound c id1 _ Hwf H1). lia.
    + rewrite lookup_insert_ne in H1 by exact N1.
      rewrite lookup_insert_ne in H2 by exact N2. eauto.
Qed.

(** Removing an entry and replacing its channel keeps the invariant. *)
Lemma wf_retire c id ref k :
  Client.wf c -> Client.ch c !! id = Some ref ->
  Client.wf {| Client.chans := <[ref := k]> (Client.chans c);
               Client.ch := delete id (Client.ch c);
               Client.nextID := Client.nextID c |}.
Proof.
  intros [Hopen Hinj] Hid. split; simpl.
  - intros id' ref' H. destruct (decide (id = id')) as [<-|Hne].
    + rewrite lookup_delete_eq in H. discriminate H.
    + rewrite lookup_delete_ne in H by exact Hne.
      rewrite list_lookup_insert_ne; [eauto|]. intros <-. apply Hne. eauto.
  - intros id1 id2 ref' H1 H2.
    destruct (decide (id = id1)) as [<-|N1]; [rewrite lookup_delete_eq in H1; discriminate|].
    destruct (decide (id = id2)) as [<-|N2]; [rewrite lookup_delete_eq in H2; discriminate|].
    rewrite lookup_delete_ne in H1 by exact N1.
    rewrite lookup_delete_ne in H2 by exact N2. eauto.
Qed.

Lemma onResponse_pending c (r : Response RawMessage) rid id ref :
  Client.wf c ->
  resp_ID r = Some rid -> ID.i64 rid = Some id -> Client.ch c !! id = Some ref ->
  Client.onResponse c r
  = Client.Done {| Client.chans :=
                     <[ref := {| Client.buffer := [r]; Client.capacity := 1;
                                 Client.closed := true |}]> (Client.chans c);
                   Client.ch := delete id (Client.ch c);
                   Client.nextID := Client.nextID c |}.
Proof.
  intros Hwf Hrid Hid Hch. pose proof Hwf as [Hopen _].
  pose proof (wf_ref_bound c id ref Hwf Hch) as Hlt.
  unfold Client.onResponse. rewrite Hrid, Hid, Hch.
  unfold Client.send. simpl. rewrite (Hopen id ref Hch). simpl.
  unfold Client.close. simpl. rewrite list_lookup_insert_eq by exact Hlt. simpl.
  now rewrite list_insert_insert_eq.
Qed.

Lemma onResponse_ignored c (r : Response RawMessage) :
  (forall rid id, resp_ID r = Some rid -> ID.i64 rid = Some id -> Client.ch c !! id = None) ->
  Client.onResponse c r = Client.Done c.
Proof.
  intros H. unfold Client.onResponse.
  destruct (resp_ID r) as [rid|]; [|reflexivity].
  destruct (ID.i64 rid) as [id|] eqn:Hid; [|reflexivity].
  now rewrite (H rid id eq_refl Hid).
Qed.

Lemma onResponse_wf c r :
  Client.wf c -> exists c', Client.onResponse c r = Client.Done c' /\ Client.wf c'.
Proof.
  intros Hwf.
  destruct (resp_ID r) as [rid|] eqn:Hrid;
    [|exists c; split; [apply onResponse_ignored; congruence|exact Hwf]].
  destruct (ID.i64 rid) as [id|] eqn:Hid;
    [|exists c; split; [apply onResponse_ignored; congruence|exact Hwf]].
  destruct (Client.ch c !! id) as [ref|] eqn:Hch;
    [|exists c; split; [apply onResponse_ignored; congruence|exact Hwf]].
  eexists. split; [apply (onResponse_pending c r rid id ref Hwf Hrid Hid Hch)|].
  now apply wf_retire.
Qed.

Lemma onResponses_wf rs : forall c,
  Client.wf c -> exists c', Client.onResponses c rs = Client.Done c' /\ Client.wf c'.
Proof.
  induction rs as [|r rs IH]; intros c Hwf; [exists c; split; [reflexivity|exact Hwf]|].
  destruct (onResponse_wf c r Hwf) as (c1 & H1 & Hwf1).
  destruct (IH c1 Hwf1) as (c' & H' & Hwf').
  exists c'. split; [|exact Hwf']. simpl. rewrite H1. exact H'.
Qed.

Lemma run_wf units : forall c,
  Client.wf c -> exists c', Client.run c units = Client.Done c' /\ Client.wf c'.
Proof.
  induction units as [|u units IH]; intros c Hwf; [exists c; split; [reflexivity|exact Hwf]|].
  destruct u as [| |res]; simpl.
  - exists c. split; [reflexivity|exact Hwf].
  - apply IH, Hwf.
  - destruct (onResponses_wf (messageList.Messages res) c Hwf) as (c1 & H1 & Hwf1).
    rewrite H1. simpl. apply IH, Hwf1.
Qed.

Lemma Batch_register_cons c r reqs :
  Client.Batch_register c (r :: reqs)
  = let rest :=
      Client.Batch_register (if Client.IsNotify r then c else fst (Client.makeChan c)) reqs in
    (fst rest,
     ({| req_Jsonrpc := VersionValue; Method := Client.br_Method r;
         Params := Client.br_Params r;
         req_ID := if Client.IsNotify r then None
                   else Some (ID.Int64ID (Client.nextID c)) |} :: (snd rest).1.1,
      (if Client.IsNotify r then (snd rest).1.2 else Client.nextID c :: (snd rest).1.2),
      (if Client.IsNotify r then None else Some (length (Client.chans c))) :: (snd rest).2)).
Proof.
  simpl. destruct (Client.IsNotify r);
    destruct (Client.Batch_register _ reqs) as [c' [[ms ids] chs]]; reflexivity.
Qed.

Lemma wf_Batch_register reqs : forall c,
  Client.wf c -> Client.wf (fst (Client.Batch_register c reqs)).
Proof.
  induction reqs as [|r reqs IH]; intros c Hwf; [exact Hwf|].
  rewrite Batch_register_cons. cbv zeta. cbn [fst].
  apply IH. destruct (Client.IsNotify r); [exact Hwf|now apply wf_makeChan].
Qed.

(** X19: the read loop is safe on every client the package can build: a
    new client satisfies the invariant of the pending-call table, minting
    identifiers for [Call] and [Batch] keeps it, and from a state that
    satisfies it [run] handles any sequence of decoded responses without
    panic (no send on a closed channel, no double close) and without
    waiting on a full channel, and ends in a state that satisfies it. *)
Theorem run_never_panics (c : Client.t) (reqs : list Client.BatchRequest)
    (units : list Client.decoded) :
  Client.wf c ->
  Client.wf Client.NewClient
  /\ Client.wf (fst (Client.makeChan c))
  /\ Client.wf (fst (Client.Batch_register c reqs))
  /\ exists c', Client.run c units = Client.Done c' /\ Client.wf c'.
Proof.
  intros Hwf. split; [apply wf_NewClient|]. split; [now apply wf_makeChan|].
  split; [now apply wf_Batch_register|]. now apply run_wf.
Qed.

Lemma run_never_panics_witness :
  Client.wf Client.NewClient
  /\ Client.wf (fst (Client.makeChan Client.NewClient))
  /\ Client.wf (fst (Client.Batch_register Client.NewClient []))
  /\ exists c',
       Client.run Client.NewClient
         [Client.DecodeError;
          Client.DecodeOk {| messageList.IsBatch := false;
                             messageList.Messages := [response_for 0 "1" None] |}]
       = Client.Done c' /\ Client.wf c'.
Proof.
  apply (run_never_panics Client.NewClient []
           [Client.DecodeError;
            Client.DecodeOk {| messageList.IsBatch := false;
                               messageList.Messages := [response_for 0 "1" None] |}]).
  apply wf_NewClient.
Defined.

(** X20: a response whose identifier has a pending entry reaches the
    caller that waits for it: [onResponse] removes that entry and no
    other, and the [select] of the waiting [Call] then returns the error of
    the response, or else its raw result. *)
Theorem response_reaches_caller (c : Client.t) (id : Z) (ref : nat)
    (raw : RawMessage) (e : option Error) :
  Client.wf c ->
  Client.ch c !! id = Some ref ->
  exists c1 c2,
    Client.onResponse c (response_for id raw e) = Client.Done c1
    /\ Client.ch c1 !! id = None
    /\ (forall id', id' <> id -> Client.ch c1 !! id' = Client.ch c !! id')
    /\ Client.Call_wait c1 ref Client.ChanReady
       = Client.Done (c2, match e with
                          | Some err => Client.CallError err
                          | None => Client.CallResult (Some raw)
                          end).
Proof.
  intros Hwf Hch. pose proof (wf_ref_bound c id ref Hwf Hch) as Hlt.
  eexists _, _. split;
    [apply (onResponse_pending c (response_for id raw e) (ID.Int64ID id) id ref Hwf
             eq_refl eq_refl Hch)|].
  simpl. split; [apply lookup_delete_eq|]. split.
  - intros id' Hne. now apply lookup_delete_ne.
  - unfold Client.Call_wait, Client.recv. simpl.
    rewrite list_lookup_insert_eq by exact Hlt. simpl. destruct e; reflexivity.
Qed.

Lemma response_reaches_caller_witness :
  exists c1 c2,
    Client.onResponse (fst (Client.makeChan Client.NewClient)) (response_for 0 "6" None)
    = Client.Done c1
    /\ Client.ch c1 !! 0 = None
    /\ (forall id', id' <> 0 ->
        Client.ch c1 !! id' = Client.ch (fst (Client.makeChan Client.NewClient)) !! id')
    /\ Client.Call_wait c1 0 Client.ChanReady
       = Client.Done (c2, Client.CallResult (Some "6")).
Proof.
  apply (response_reaches_caller (fst (Client.makeChan Client.NewClient)) 0 0%nat "6" None).
  - apply wf_makeChan, wf_NewClient.
  - reflexivity.
Defined.

(** X21: a response that matches no pending entry (no identifier, an
    identifier that is not an integer, or an integer nobody waits for)
    leaves the client as it is; and once a response has been handled, a
    second copy of it is such a response, so a duplicate changes
    nothing. *)
Theorem unmatched_and_duplicate_responses_dropped (c c1 : Client.t)
    (r : Response RawMessage) :
  Client.wf c ->
  Client.onResponse c r = Client.Done c1 ->
  Client.onResponse c1 r = Client.Done c1
  /\ ((forall rid id, resp_ID r = Some rid -> ID.i64 rid = Some id ->
                      Client.ch c !! id = None) -> c1 = c).
Proof.
  intros Hwf H1. split.
  - destruct (resp_ID r) as [rid|] eqn:Hrid; [|apply onResponse_ignored; congruence].
    destruct (ID.i64 rid) as [id|] eqn:Hid; [|apply onResponse_ignored; congruence].
    destruct (Client.ch c !! id) as [ref|] eqn:Hch.
    + rewrite (onResponse_pending c r rid id ref Hwf Hrid Hid Hch) in H1.
      injection H1 as <-. apply onResponse_ignored. simpl.
      intros rid' id' Hr Hi. assert (id' = id) as -> by congruence.
      apply lookup_delete_eq.
    + rewrite onResponse_ignored in H1 by congruence. injection H1 as <-.
      apply onResponse_ignored. congruence.
  - intros Hnone. rewrite (onResponse_ignored c r Hnone) in H1. now injection H1.
Qed.

Lemma unmatched_and_duplicate_responses_dropped_witness :
  Client.onResponse
    {| Client.chans := [{| Client.buffer := [response_for 0 "6" None];
                           Client.capacity := 1; Client.closed := true |}];
       Client.ch := delete 0 (<[0 := 0%nat]> ∅); Client.nextID := 1 |}
    (response_for 0 "6" None)
  = Client.Done
      {| Client.chans := [{| Client.buffer := [response_for 0 "6" None];
                             Client.capacity := 1; Client.closed := true |}];
         Client.ch := delete 0 (<[0 := 0%nat]> ∅); Client.nextID := 1 |}
  /\ ((forall rid id, resp_ID (response_for 0 "6" None) = Some rid -> ID.i64 rid = Some id ->
                      Client.ch (fst (Client.makeChan Client.NewClient)) !! id = None) ->
      {| Client.chans := [{| Client.buffer := [response_for 0 "6" None];
                             Client.capacity := 1; Client.closed := true |}];
         Client.ch := delete 0 (<[0 := 0%nat]> ∅); Client.nextID := 1 |}
      = fst (Client.makeChan Client.NewClient)).
Proof.
  apply (unmatched_and_duplicate_responses_dropped
           (fst (Client.makeChan Client.NewClient)) _ (response_for 0 "6" None)).
  - apply wf_makeChan, wf_NewClient.
  - reflexivity.
Defined.

(** *** Closing the client *)

Lemma close_retire c id ref :
  Client.wf c -> Client.ch c !! id = Some ref ->
  Client.close (Client.delete_entry c id) ref
  = Client.Done {| Client.chans := <[ref := Client.closed_chan]> (Client.chans c);
                   Client.ch := delete id (Client.ch c);
                   Client.nextID := Client.nextID c |}.
Proof.
  intros [Hopen _] Hch. unfold Client.close. simpl. now rewrite (Hopen id ref Hch).
Qed.

Lemma destroy_wf ids : forall c,
  Client.wf c ->
  exists c',
    Client.destroy c ids = Client.Done c'
    /\ Client.wf c'
    /\ (forall x, x ∈ ids -> Client.ch c' !! x = None)
    /\ (forall x, x ∉ ids -> Client.ch c' !! x = Client.ch c !! x)
    /\ (forall x ref, x ∈ ids -> Client.ch c !! x = Some ref ->
                      Client.chans c' !! ref = Some Client.closed_chan)
    /\ (forall ref, (forall x, x ∈ ids -> Client.ch c !! x <> Some ref) ->
                    Client.chans c' !! ref = Client.chans c !! ref).
Proof.
  induction ids as [|id ids IH]; intros c Hwf.
  - exists c. split; [reflexivity|]. split; [exact Hwf|]. split; [|split; [|split]].
    + intros x Hx. now apply not_elem_of_nil in Hx.
    + reflexivity.
    + intros x ref Hx. now apply not_elem_of_nil in Hx.
    + reflexivity.
  - simpl. destruct (Client.ch c !! id) as [ref|] eqn:Hch.
    + rewrite (close_retire c id ref Hwf Hch). simpl.
      pose proof (wf_retire c id ref Client.closed_chan Hwf Hch) as Hwf1.
      pose proof (wf_ref_bound c id ref Hwf Hch) as Hlt.
      destruct Hwf as [Hopen Hinj].
      destruct (IH _ Hwf1) as (c' & Hd & Hwf' & Hin & Hout & Hclosed & Hkeep).
      simpl in Hout, Hclosed, Hkeep.
      exists c'. split; [exact Hd|]. split; [exact Hwf'|]. repeat split.
      * intros x Hx. destruct (decide (x ∈ ids)) as [Hxi|Hxi]; [now apply Hin|].
        rewrite (Hout x Hxi). apply elem_of_cons in Hx as [-> | Hx]; [|contradiction].
        apply lookup_delete_eq.
      * intros x Hx. rewrite not_elem_of_cons in Hx. destruct Hx as [Hne Hxi].
        rewrite (Hout x Hxi). now apply lookup_delete_ne.
      * intros x ref' Hx Hxr. destruct (decide (x = id)) as [->|Hne].
        -- assert (ref' = ref) as -> by congruence.
           rewrite Hkeep; [now apply list_lookup_insert_eq|].
           intros y _ Hy. destruct (decide (id = y)) as [<-|Hney].
           ++ rewrite lookup_delete_eq in Hy. discriminate Hy.
           ++ rewrite lookup_delete_ne in Hy by exact Hney. apply Hney. eauto.
        -- apply elem_of_cons in Hx as [-> | Hx]; [contradiction|].
           apply (Hclosed x ref' Hx). now rewrite lookup_delete_ne.
      * intros ref' Hnone. rewrite Hkeep.
        -- apply list_lookup_insert_ne. intros <-. apply (Hnone id); [now left|exact Hch].
        -- intros y Hy Hyr. destruct (decide (id = y)) as [<-|Hney].
           ++ rewrite lookup_delete_eq in Hyr. discriminate Hyr.
           ++ rewrite lookup_delete_ne in Hyr by exact Hney.
              apply (Hnone y); [now right|exact Hyr].
    + destruct (IH c Hwf) as (c' & Hd & Hwf' & Hin & Hout & Hclosed & Hkeep).
      exists c'. split; [exact Hd|]. split; [exact Hwf'|]. repeat split.
      * intros x Hx. destruct (decide (x ∈ ids)) as [Hxi|Hxi]; [now apply Hin|].
        rewrite (Hout x Hxi). apply elem_of_cons in Hx as [-> | Hx]; [exact Hch|contradiction].
      * intros x Hx. rewrite not_elem_of_cons in Hx. now apply Hout.
      * intros x ref' Hx Hxr. apply elem_of_cons in Hx as [-> | Hx]; [congruence|].
        now apply (Hclosed x ref').
      * intros ref' Hnone. apply Hkeep. intros y Hy. apply Hnone. now right.
Qed.

Lemma Close_wf c :
  Client.wf c ->
  exists c',
    Client.Close c = Client.Done c'
    /\ Client.ch c' = ∅
    /\ forall id ref, Client.ch c !! id = Some ref ->
         Client.chans c' !! ref = Some Client.closed_chan.
Proof.
  intros Hwf. unfold Client.Close.
  destruct (destroy_wf (map fst (map_to_list (Client.ch c))) c Hwf)
    as (c' & Hd & _ & Hin & Hout & Hclosed & _).
  assert (forall id ref, Client.ch c !! id = Some ref ->
            id ∈ map fst (map_to_list (Client.ch c))) as Hkeys.
  { intros id ref H. apply list_elem_of_In, in_map_iff. exists (id, ref).
    split; [reflexivity|]. apply list_elem_of_In. now apply elem_of_map_to_list. }
  exists c'. split; [exact Hd|]. split.
  - apply map_empty. intros id.
    destruct (Client.ch c !! id) as [ref|] eqn:Hch; [apply Hin; eauto|].
    destruct (decide (id ∈ map fst (map_to_list (Client.ch c)))) as [Hi|Hi];
      [now apply Hin|]. now rewrite (Hout id Hi).
  - intros id ref H. apply (Hclosed id ref); eauto.
Qed.



(** X23: the branch of [Call] for a failed write closes the channel
    without looking whether the entry is still there.  Run right after
    [makeChan] it removes the entry and closes the channel; but when
    [Close], or a response for the identifier, has been handled between
    [makeChan] and the return of the failed write, the channel is already
    closed and the branch panics. *)
Theorem failed_write_after_close_panics (c : Client.t) (raw : RawMessage)
    (e : option Error) :
  Client.wf c ->
  (exists c2, Client.Call_abort (fst (Client.makeChan c)) (Client.nextID c)
                (length (Client.chans c)) = Client.Done c2
              /\ Client.ch c2 !! Client.nextID c = None)
  /\ (exists c2, Client.Close (fst (Client.makeChan c)) = Client.Done c2
                 /\ Client.Call_abort c2 (Client.nextID c) (length (Client.chans c))
                    = Client.Panic)
  /\ (exists c2, Client.onResponse (fst (Client.makeChan c))
                   (response_for (Client.nextID c) raw e) = Client.Done c2
                 /\ Client.Call_abort c2 (Client.nextID c) (length (Client.chans c))
                    = Client.Panic).
Proof.
  intros Hwf. pose proof (wf_makeChan c Hwf) as Hwf1.
  assert (Client.ch (fst (Client.makeChan c)) !! Client.nextID c
          = Some (length (Client.chans c))) as Hch by (simpl; apply lookup_insert_eq).
  split; [|split].
  - unfold Client.Call_abort. rewrite (close_retire _ _ _ Hwf1 Hch).
    eexists. split; [reflexivity|]. simpl. apply lookup_delete_eq.
  - destruct (Close_wf _ Hwf1) as (c2 & Hclose & _ & Hclosed).
    exists c2. split; [exact Hclose|].
    unfold Client.Call_abort, Client.close. simpl.
    now rewrite (Hclosed _ _ Hch).
  - eexists. split;
      [apply (onResponse_pending _ (response_for (Client.nextID c) raw e)
                (ID.Int64ID (Client.nextID c)) _ _ Hwf1 eq_refl eq_refl Hch)|].
    unfold Client.Call_abort, Client.close. simpl.
    rewrite list_lookup_insert_eq; [reflexivity|].
    rewrite length_app. simpl. lia.
Qed.

Lemma failed_write_after_close_panics_witness :
  (exists c2, Client.Call_abort (fst (Client.makeChan Client.NewClient)) 0 0%nat = Client.Done c2
              /\ Client.ch c2 !! 0 = None)
  /\ (exists c2, Client.Close (fst (Client.makeChan Client.NewClient)) = Client.Done c2
                 /\ Client.Call_abort c2 0 0%nat = Client.Panic)
  /\ (exists c2, Client.onResponse (fst (Client.makeChan Client.NewClient))
                   (response_for 0 "1" None) = Client.Done c2
                 /\ Client.Call_abort c2 0 0%nat = Client.Panic).
Proof.
  apply (failed_write_after_close_panics Client.NewClient "1" None).
  apply wf_NewClient.
Defined.

(** ** Batches of the client *)

Lemma makeChan_keeps_pending c id :
  is_Some (Client.ch c !! id) -> is_Some (Client.ch (fst (Client.makeChan c)) !! id).
Proof. intros H. simpl. apply lookup_insert_is_Some'. now right. Qed.

Lemma Batch_register_keeps_pending reqs : forall c id,
  is_Some (Client.ch c !! id) ->
  is_Some (Client.ch (fst (Client.Batch_register c reqs)) !! id).
Proof.
  induction reqs as [|r reqs IH]; intros c id H; [exact H|].
  rewrite Batch_register_cons. cbv zeta. cbn [fst]. apply IH.
  destruct (Client.IsNotify r); [exact H|now apply makeChan_keeps_pending].
Qed.

(** X24: [Batch] builds one message per request, in order, with the
    request's method and parameters; a message has no identifier exactly
    when its request is a notification, and exactly then its channel is
    nil.  The identifiers minted are those on the wire, in order, and each
    of them is pending when the batch is written. *)
Theorem Batch_register_matches_requests (c : Client.t) (reqs : list Client.BatchRequest) :
  Forall2 (fun req msg =>
             Method msg = Client.br_Method req /\ Params msg = Client.br_Params req
             /\ (req_ID msg = None <-> Client.IsNotify req = true))
    reqs (snd (Client.Batch_register c reqs)).1.1
  /\ Forall2 (fun req (k : option nat) => k = None <-> Client.IsNotify req = true)
       reqs (snd (Client.Batch_register c reqs)).2
  /\ (snd (Client.Batch_register c reqs)).1.2
     = omap (fun msg : Request any => req_ID msg ≫= ID.i64)
         (snd (Client.Batch_register c reqs)).1.1
  /\ forall id, id ∈ (snd (Client.Batch_register c reqs)).1.2 ->
       is_Some (Client.ch (fst (Client.Batch_register c reqs)) !! id).
Proof.
  revert c. induction reqs as [|r reqs IH]; intros c.
  - simpl. repeat split; try constructor. intros id Hid. now apply not_elem_of_nil in Hid.
  - rewrite Batch_register_cons. cbv zeta. cbn [fst snd].
    destruct (Client.IsNotify r) eqn:Hn.
    + destruct (IH c) as (H1 & H2 & H3 & H4). repeat split; try assumption.
      * constructor; [|exact H1]. simpl. repeat split; intros; congruence.
      * constructor; [|exact H2]. split; intros; congruence.
    + destruct (IH (fst (Client.makeChan c))) as (H1 & H2 & H3 & H4). repeat split.
      * constructor; [|exact H1]. simpl. repeat split; intros; congruence.
      * constructor; [|exact H2]. split; intros; congruence.
      * cbn [omap list_omap req_ID mbind option_bind ID.i64 ID.Int64ID].
        f_equal. exact H3.
      * intros id Hid. apply elem_of_cons in Hid as [-> | Hid]; [|now apply H4].
        apply Batch_register_keeps_pending. simpl. rewrite lookup_insert_eq. eauto.
Qed.



Lemma recv_keeps_table c ref c1 res :
  Client.recv c ref = Client.Done (c1, res) -> Client.ch c1 = Client.ch c.
Proof.
  unfold Client.recv. destruct (Client.chans c !! ref) as [k|]; [|discriminate].
  destruct (Client.buffer k); [destruct (Client.closed k)|]; try discriminate;
    intros H; now injection H as <- _.
Qed.

(** X26: when [Batch] gives up because the context is done, it returns the
    error of the context and leaves none of the identifiers of the batch
    in the pending-call table. *)
Theorem Batch_cancelled_removes_entries (reqs : list Client.BatchRequest)
    (chs : list (option nat)) (c c' : Client.t) (ids : list Z)
    (wakes : list Client.wake) (e : error) :
  Client.Batch_wait c ids reqs chs wakes = Client.Done (c', inr e) ->
  In (Client.CtxDone e) wakes
  /\ forall id, In id ids -> Client.ch c' !! id = None.
Proof.
  revert chs c c' wakes.
  induction reqs as [|req reqs IH]; intros chs c c' wakes H; [discriminate H|].
  destruct chs as [|[ref|] chs]; simpl in H; [discriminate H| |].
  - destruct wakes as [|[ctx_err|] wakes]; [discriminate H| |].
    + destruct (Client.destroy c ids) as [c2| |] eqn:Hd; try discriminate H.
      simpl in H. injection H as <- <-. split; [now left|].
      intros id Hid. apply (destroy_removes ids c c2 id Hid Hd).
    + destruct (Client.recv c ref) as [[c1 res]| |] eqn:Hrecv; try discriminate H.
      simpl in H.
      destruct (Client.Batch_wait c1 ids reqs chs wakes) as [[c2 [rs|e']]| |] eqn:Hrec;
        try discriminate H.
      simpl in H. injection H as <- <-.
      destruct (IH _ _ _ _ Hrec) as [Hin Hgone]. split; [now right|exact Hgone].
  - destruct (Client.Batch_wait c ids reqs chs wakes) as [[c2 [rs|e']]| |] eqn:Hrec;
      try discriminate H.
    simpl in H. injection H as <- <-. apply (IH _ _ _ _ Hrec).
Qed.

Lemma Batch_cancelled_removes_entries_witness :
  In (Client.CtxDone (errors_New "context canceled"))
    [Client.CtxDone (errors_New "context canceled")]
  /\ forall id, In id [0] ->
       Client.ch {| Client.chans := [Client.closed_chan]; Client.ch := delete 0 (<[0 := 0%nat]> ∅);
                    Client.nextID := 1 |} !! id = None.
Proof.
  apply (Batch_cancelled_removes_entries
           [{| Client.br_Method := "sum"; Client.br_Params := nil_any;
               Client.IsNotify := false |}]
           [Some 0%nat] (fst (Client.makeChan Client.NewClient)) _ [0]
           [Client.CtxDone (errors_New "context canceled")]
           (errors_New "context canceled")).
  reflexivity.
Defined.

(** *** Identifiers minted by the counter *)

Lemma wrap_int64_small x : int64_range x -> wrap_int64 x = x.
Proof.
  unfold int64_range, wrap_int64, minInt64, maxInt64.
  change (2 ^ 63) with 9223372036854775808. change (2 ^ 64) with 18446744073709551616.
  intros H. rewrite Z.mod_small by lia. lia.
Qed.

Lemma wrap_int64_add a b : wrap_int64 (wrap_int64 a + b) = wrap_int64 (a + b).
Proof.
  unfold wrap_int64. f_equal.
  replace ((a + 2 ^ 63) mod 2 ^ 64 - 2 ^ 63 + b + 2 ^ 63)
    with ((a + 2 ^ 63) mod 2 ^ 64 + b) by lia.
  rewrite Zplus_mod_idemp_l. f_equal. lia.
Qed.

Lemma wrap_int64_offset_inj n k1 k2 :
  0 <= k1 < 2 ^ 64 -> 0 <= k2 < 2 ^ 64 ->
  wrap_int64 (n + k1) = wrap_int64 (n + k2) -> k1 = k2.
Proof.
  unfold wrap_int64. change (2 ^ 63) with 9223372036854775808.
  change (2 ^ 64) with 18446744073709551616. intros H1 H2 H.
  pose proof (Z.div_mod (n + k1 + 9223372036854775808) 18446744073709551616 ltac:(lia)) as E1.
  pose proof (Z.div_mod (n + k2 + 9223372036854775808) 18446744073709551616 ltac:(lia)) as E2.
  set (q1 := (n + k1 + 9223372036854775808) / 18446744073709551616) in *.
  set (q2 := (n + k2 + 9223372036854775808) / 18446744073709551616) in *.
  lia.
Qed.

Lemma Batch_register_ids reqs : forall c,
  int64_range (Client.nextID c) ->
  (snd (Client.Batch_register c reqs)).1.2
  = (fun k : nat => wrap_int64 (Client.nextID c + Z.of_nat k))
      <$> seq 0 (length (snd (Client.Batch_register c reqs)).1.2).
Proof.
  induction reqs as [|r reqs IH]; intros c Hr; [reflexivity|].
  rewrite Batch_register_cons. cbv zeta. cbn [fst snd].
  destruct (Client.IsNotify r); [apply IH, Hr|].
  cbn [length seq]. rewrite fmap_cons. f_equal.
  - rewrite Z.add_0_r. symmetry. now apply wrap_int64_small.
  - rewrite (IH (fst (Client.makeChan c))) at 1 by (simpl; apply wrap_int64_range).
    rewrite <- fmap_S_seq, <- list_fmap_compose. apply list_fmap_ext.
    intros i k _. simpl. rewrite wrap_int64_add. f_equal. lia.
Qed.

Lemma Batch_register_ids_length reqs : forall c,
  (length (snd (Client.Batch_register c reqs)).1.2 <= length reqs)%nat.
Proof.
  induction reqs as [|r reqs IH]; intros c; [simpl; lia|].
  rewrite Batch_register_cons. cbv zeta. cbn [fst snd].
  destruct (Client.IsNotify r); simpl.
  - specialize (IH c). lia.
  - specialize (IH (fst (Client.makeChan c))). simpl in IH. lia.
Qed.

(** X27: the identifiers that [Batch] mints are consecutive values of the
    counter, with 64-bit wrap-around; in a batch of at most 2^64 requests
    no two calls get the same identifier, and the counter stays a 64-bit
    value. *)
Theorem Batch_identifiers_distinct (c : Client.t) (reqs : list Client.BatchRequest) :
  int64_range (Client.nextID c) ->
  Z.of_nat (length reqs) <= 2 ^ 64 ->
  NoDup (snd (Client.Batch_register c reqs)).1.2
  /\ (snd (Client.Batch_register c reqs)).1.2
     = (fun k : nat => wrap_int64 (Client.nextID c + Z.of_nat k))
         <$> seq 0 (length (snd (Client.Batch_register c reqs)).1.2)
  /\ int64_range (Client.nextID (fst (Client.makeChan c))).
Proof.
  intros Hr Hlen. pose proof (Batch_register_ids_length reqs c) as Hle.
  split; [|split; [now apply Batch_register_ids|simpl; apply wrap_int64_range]].
  rewrite (Batch_register_ids reqs c Hr).
  apply NoDup_fmap_2_strong; [|apply NoDup_seq].
  intros i j Hi Hj Heq. apply elem_of_seq in Hi, Hj.
  apply wrap_int64_offset_inj in Heq; lia.
Qed.

Lemma Batch_identifiers_distinct_witness :
  NoDup (snd (Client.Batch_register Client.NewClient
                [{| Client.br_Method := "a"; Client.br_Params := nil_any;
                    Client.IsNotify := false |};
                 {| Client.br_Method := "b"; Client.br_Params := nil_any;
                    Client.IsNotify := false |}])).1.2
  /\ (snd (Client.Batch_register Client.NewClient
             [{| Client.br_Method := "a"; Client.br_Params := nil_any;
                 Client.IsNotify := false |};
              {| Client.br_Method := "b"; Client.br_Params := nil_any;
                 Client.IsNotify := false |}])).1.2
     = (fun k : nat => wrap_int64 (Client.nextID Client.NewClient + Z.of_nat k))
         <$> seq 0 (length (snd (Client.Batch_register Client.NewClient
                [{| Client.br_Method := "a"; Client.br_Params := nil_any;
                    Client.IsNotify := false |};
                 {| Client.br_Method := "b"; Client.br_Params := nil_any;
                    Client.IsNotify := false |}])).1.2)
  /\ int64_range (Client.nextID (fst (Client.makeChan Client.NewClient))).
Proof.
  apply (Batch_identifiers_distinct Client.NewClient
           [{| Client.br_Method := "a"; Client.br_Params := nil_any;
               Client.IsNotify := false |};
            {| Client.br_Method := "b"; Client.br_Params := nil_any;
               Client.IsNotify := false |}]).
  - unfold int64_range, minInt64, maxInt64. simpl. lia.
  - simpl. lia.
Defined.

(** ** Progress of the gate *)

(** X28: the gate cannot deadlock: in every reachable state in which a
    message waits for a token or a dispatch is under way, some step of a
    dispatch loop or goroutine is enabled (acquire, start, enter, leave or
    release); in particular, when the semaphore is full there is a
    goroutine on its way to the release. *)
Theorem gate_makes_progress (s : Server.t) (st : Gate.state) :
  0 < Server.maxConcurrentCalls s ->
  Gate.reachable (Gate.capacity s) st ->
  (0 < Gate.waiting st + Gate.acquired st + Gate.spawned st + Gate.running st
       + Gate.finished st)%nat ->
  exists st',
    Gate.step (Gate.capacity s) st st'
    /\ (Gate.waiting st' <= Gate.waiting st)%nat
    /\ st' <> st.
Proof.
  intros Hcap Hreach Hwork.
  destruct (gate_invariant _ _ Hreach) as [Hsem Hle].
  assert (0 < Gate.capacity s)%nat as Hc by (unfold Gate.capacity; lia).
  destruct (Gate.finished st) as [|f] eqn:Hf.
  - destruct (Gate.running st) as [|r] eqn:Hr.
    + destruct (Gate.spawned st) as [|p] eqn:Hp.
      * destruct (Gate.acquired st) as [|a] eqn:Ha.
        -- destruct (Gate.waiting st) as [|w] eqn:Hw; [simpl in Hwork; lia|].
           eexists. split; [apply (Gate.step_acquire _ st w Hw); lia|].
           simpl. split; [lia|]. intros E. apply (f_equal Gate.waiting) in E.
           simpl in E. lia.
        -- eexists. split; [apply (Gate.step_go _ st a Ha)|].
           simpl. split; [lia|]. intros E. apply (f_equal Gate.acquired) in E.
           simpl in E. lia.
      * eexists. split; [apply (Gate.step_enter _ st p Hp)|].
        simpl. split; [lia|]. intros E. apply (f_equal Gate.spawned) in E.
        simpl in E. lia.
    + eexists. split; [apply (Gate.step_leave _ st r Hr)|].
      simpl. split; [lia|]. intros E. apply (f_equal Gate.running) in E.
      simpl in E. lia.
  - destruct (Gate.sem st) as [|k] eqn:Hk; [lia|].
    eexists. split; [apply (Gate.step_release _ st f k Hf Hk)|].
    simpl. split; [lia|]. intros E. apply (f_equal Gate.finished) in E.
    simpl in E. lia.
Qed.

Lemma gate_makes_progress_witness :
  exists st',
    Gate.step (Gate.capacity (Server.NewServer [])) gate_entered_batch st'
    /\ (Gate.waiting st' <= Gate.waiting gate_entered_batch)%nat
    /\ st' <> gate_entered_batch.
Proof.
  apply (gate_makes_progress (Server.NewServer []) gate_entered_batch).
  - simpl. lia.
  - apply (Gate.reach_step _ Gate.init); [apply Gate.reach_init|].
    exact (Gate.step_batch _ Gate.init 1%nat).
  - simpl. lia.
Defined.
